(** * Whisp: group registry and anonymous-signal validation

    A shallow embedding of the [Whisp] Solidity contract
    (packages/hardhat/deploy/004_deploy_arkanon.ts, contract section) and the
    properties of its state machine: sequential registry ids, single join per
    account, single use of a nullifier per group, and the shape of the
    emitted signal.

    Conventions
    - [uint256], [uint64] and [address] values are [N]; narrowing casts are
      written out as reductions modulo a power of two.
    - A Solidity [mapping] is a [gmap] read through [default] with the zero
      value of the value type, as the EVM reads an unwritten slot.
    - Contract code runs in a state-and-error monad [M] over a [World]; a
      failing run hands back the world as it stood at the failing statement,
      so that "nothing was written before the failure" is a statement about
      the code and not about the rollback of the host ledger.
    - A transaction ([transact]) is a run followed by the rollback of the
      host ledger on failure. *)

From stdpp Require Import base option list strings gmap fin_maps.
From Stdlib Require Import NArith Lia.

Local Open Scope N_scope.

(** ** Machine integers *)

Definition MAX_UINT256 : N := 2 ^ 256 - 1.

(** [uint256(x)]: keep the low 256 bits. *)
Definition uint256 (x : N) : N := x mod 2 ^ 256.

(** [uint64(x)]: keep the low 64 bits. *)
Definition uint64 (x : N) : N := x mod 2 ^ 64.

(** [abi.encodePacked] of a single dynamic [bytes] argument: the bytes
    themselves. *)
Definition abi_encodePacked (b : list Byte.byte) : list Byte.byte := b.

(** ** Data model *)

(** [struct GroupInfo]. *)
Record GroupInfo := mkGroupInfo {
  groupId : N;
  creator : N;
  createdAt : N;
  exists_ : bool;
  name : string;
  description : string;
  imageUrl : string;
  category : string
}.

(** The value of an unwritten [groups] slot. *)
Definition zeroGroupInfo : GroupInfo :=
  {| groupId := 0; creator := 0; createdAt := 0; exists_ := false;
     name := ""; description := ""; imageUrl := ""; category := "" |}.

(** Modelled from the spec: [ISemaphore.SemaphoreProof] is declared in
    interfaces/ISemaphore.sol, which is not part of the sources. The
    contract reads [nullifier], [message] and [scope]; the remaining
    scheme-specific fields are carried as the opaque [points]. The spec
    (section 6) gives [nullifier] as a large integer and [message], [scope]
    as byte strings. *)
Record SemaphoreProof := mkProof {
  nullifier : N;
  message : list Byte.byte;
  scope : list Byte.byte;
  points : list N
}.

(** The contract events. *)
Inductive Event :=
| GroupCreated (registryId groupId creator : N)
    (name description imageUrl category : string) (createdAt : N)
| MemberJoined (registryId groupId member commitment joinedAt : N)
| SignalSent (registryId groupId signalHash scopeHash nullifier timestamp : N).

(** Storage of the contract. *)
Record WhispState := mkWhisp {
  nextGroupIndex : N;
  groups : gmap N GroupInfo;
  hasJoined : gmap (N * N) bool;
  nullifierUsed : gmap (N * N) bool
}.

Definition initWhisp : WhispState :=
  {| nextGroupIndex := 0; groups := ∅; hasJoined := ∅; nullifierUsed := ∅ |}.

(** Reads of the three mappings. *)
Definition groups_at (st : WhispState) (registryId : N) : GroupInfo :=
  default zeroGroupInfo (groups st !! registryId).

Definition hasJoined_at (st : WhispState) (registryId user : N) : bool :=
  default false (hasJoined st !! (registryId, user)).

Definition nullifierUsed_at (st : WhispState) (registryId n : N) : bool :=
  default false (nullifierUsed st !! (registryId, n)).

(** [msg.sender] and [block.timestamp] of the current call. *)
Record Env := mkEnv { msg_sender : N; block_timestamp : N }.

(** ** The external membership-proof service *)

(** Calls that leave the contract. *)
Inductive ExtCall :=
| CallCreateGroup
| CallAddMember (groupId commitment : N)
| CallValidateProof (groupId : N) (proof : SemaphoreProof).

(** [ISemaphore], over the service's own state [S]. The interface file
    (interfaces/ISemaphore.sol) is not part of the sources, so the three
    calls the contract makes are taken as parameters: a call either returns
    (with the service's new state) or reverts ([None]). The service never
    calls back into the contract. *)
Class ISemaphore (S : Type) := {
  sem_createGroup : S -> option (N * S);
  sem_addMember : N -> N -> S -> option S;
  sem_validateProof : N -> SemaphoreProof -> S -> option S
}.

(** ** Execution monad *)

Inductive Error :=
| RequireFailed (reason : string)
| UpstreamReverted (call : ExtCall)
| Panic (code : N).

Inductive Result (A : Type) :=
| Ok (a : A)
| Revert (e : Error).
Arguments Ok {A} a.
Arguments Revert {A} e.

(** Everything a run can touch: the contract storage, the service, the
    events emitted so far and the external calls made so far. *)
Record World (S : Type) := mkWorld {
  contract : WhispState;
  semaphore : S;
  log : list Event;
  extcalls : list ExtCall
}.
Arguments mkWorld {S}.
Arguments contract {S}.
Arguments semaphore {S}.
Arguments log {S}.
Arguments extcalls {S}.

Definition M (S A : Type) : Type := World S -> Result A * World S.

Definition ret {S A} (a : A) : M S A := fun w => (Ok a, w).

Definition bind {S A B} (m : M S A) (k : A -> M S B) : M S B :=
  fun w =>
    match m w with
    | (Ok a, w') => k a w'
    | (Revert e, w') => (Revert e, w')
    end.

Declare Scope whisp_scope.
Delimit Scope whisp_scope with whisp.
Notation "x <- m ;; k" := (bind m (fun x => k))
  (at level 100, m at next level, right associativity) : whisp_scope.
Notation "m ;; k" := (bind m (fun _ => k))
  (at level 100, right associativity) : whisp_scope.
Local Open Scope whisp_scope.

Definition revert {S A} (e : Error) : M S A := fun w => (Revert e, w).

(** [require(cond, reason)]. *)
Definition require {S} (cond : bool) (reason : string) : M S unit :=
  if cond then ret tt else revert (RequireFailed reason).

Definition get {S} : M S WhispState := fun w => (Ok (contract w), w).

Definition put {S} (st : WhispState) : M S unit :=
  fun w => (Ok tt, mkWorld st (semaphore w) (log w) (extcalls w)).

Definition emit {S} (e : Event) : M S unit :=
  fun w => (Ok tt, mkWorld (contract w) (semaphore w) (log w ++ [e]) (extcalls w)).

(** An external call: it is recorded, then the service either moves to its
    new state or reverts, which reverts the caller. *)
Definition external {S A} (c : ExtCall) (f : S -> option (A * S)) : M S A :=
  fun w =>
    let calls := extcalls w ++ [c] in
    match f (semaphore w) with
    | Some (a, s') => (Ok a, mkWorld (contract w) s' (log w) calls)
    | None => (Revert (UpstreamReverted c), mkWorld (contract w) (semaphore w) (log w) calls)
    end.

(** ** The contract *)

Section Whisp.
Context {S : Type} `{Sem : ISemaphore S}.

(** Hash primitive of the host ledger. *)
Variable keccak256 : list Byte.byte -> N.

Definition semaphore_createGroup : M S N :=
  external CallCreateGroup sem_createGroup.

Definition semaphore_addMember (gid commitment : N) : M S unit :=
  external (CallAddMember gid commitment)
    (fun s => (fun s' => (tt, s')) <$> sem_addMember gid commitment s).

Definition semaphore_validateProof (gid : N) (proof : SemaphoreProof) : M S unit :=
  external (CallValidateProof gid proof)
    (fun s => (fun s' => (tt, s')) <$> sem_validateProof gid proof s).

(** [nextGroupIndex++] under checked arithmetic. *)
Definition nextGroupIndex_postincr : M S N :=
  st <- get ;;
  let old := nextGroupIndex st in
  if decide (old = MAX_UINT256) then revert (Panic 17)
  else
    put (mkWhisp (old + 1) (groups st) (hasJoined st) (nullifierUsed st)) ;;
    ret old.

(** [groups[registryId] = g]. *)
Definition groups_set (registryId : N) (g : GroupInfo) : M S unit :=
  st <- get ;;
  put (mkWhisp (nextGroupIndex st) (<[registryId := g]> (groups st))
         (hasJoined st) (nullifierUsed st)).

(** [hasJoined[registryId][user] = true]. *)
Definition hasJoined_set (registryId user : N) : M S unit :=
  st <- get ;;
  put (mkWhisp (nextGroupIndex st) (groups st)
         (<[(registryId, user) := true]> (hasJoined st)) (nullifierUsed st)).

(** [nullifierUsed[registryId][n] = true]. *)
Definition nullifierUsed_set (registryId n : N) : M S unit :=
  st <- get ;;
  put (mkWhisp (nextGroupIndex st) (groups st) (hasJoined st)
         (<[(registryId, n) := true]> (nullifierUsed st))).

Definition createGroup (name description imageUrl category : string)
    (env : Env) : M S N :=
  groupId <- semaphore_createGroup ;;
  registryId <- nextGroupIndex_postincr ;;
  let timestamp := uint64 (block_timestamp env) in
  groups_set registryId
    {| groupId := groupId; creator := msg_sender env; createdAt := timestamp;
       exists_ := true; name := name; description := description;
       imageUrl := imageUrl; category := category |} ;;
  emit (GroupCreated registryId groupId (msg_sender env)
          name description imageUrl category timestamp) ;;
  ret registryId.

Definition joinGroup (registryId identityCommitment : N) (env : Env) : M S unit :=
  st <- get ;;
  let g := groups_at st registryId in
  require (exists_ g) "Group not found" ;;
  require (negb (hasJoined_at st registryId (msg_sender env))) "Already joined" ;;
  semaphore_addMember (groupId g) identityCommitment ;;
  hasJoined_set registryId (msg_sender env) ;;
  emit (MemberJoined registryId (groupId g) (msg_sender env)
          identityCommitment (uint64 (block_timestamp env))).

(** The two field hashes recomputed by [validateSignal]. *)
Definition fieldHash (b : list Byte.byte) : N :=
  N.shiftr (uint256 (keccak256 (abi_encodePacked b))) 8.

Definition validateSignal (registryId : N) (proof : SemaphoreProof)
    (env : Env) : M S unit :=
  st <- get ;;
  let g := groups_at st registryId in
  require (exists_ g) "Group not found" ;;
  require (negb (nullifierUsed_at st registryId (nullifier proof)))
    "Nullifier already used" ;;
  semaphore_validateProof (groupId g) proof ;;
  nullifierUsed_set registryId (nullifier proof) ;;
  let signalHash := fieldHash (message proof) in
  let scopeHash := fieldHash (scope proof) in
  emit (SignalSent registryId (groupId g) signalHash scopeHash
          (nullifier proof) (uint64 (block_timestamp env))).

Definition isMember (registryId user : N) : M S bool :=
  st <- get ;;
  ret (hasJoined_at st registryId user).

Definition getGroupInfo (registryId : N) : M S GroupInfo :=
  st <- get ;;
  ret (groups_at st registryId).

End Whisp.

(** ** Transactions and traces *)

(** The state-changing entry points of the contract. *)
Inductive Call :=
| CreateGroup (name description imageUrl category : string)
| JoinGroup (registryId identityCommitment : N)
| ValidateSignal (registryId : N) (proof : SemaphoreProof).

Section Ledger.
Context {S : Type} `{Sem : ISemaphore S}.
Variable keccak256 : list Byte.byte -> N.

Definition initWorld (s0 : S) : World S :=
  {| contract := initWhisp; semaphore := s0; log := []; extcalls := [] |}.

(** One call, its return value dropped. *)
Definition exec (c : Call) (env : Env) : M S unit :=
  match c with
  | CreateGroup n d i c => _ <- createGroup n d i c env ;; ret tt
  | JoinGroup r c => joinGroup r c env
  | ValidateSignal r p => validateSignal keccak256 r p env
  end.

(** One transaction: the host ledger keeps the effects of a run that
    returns and discards those of a run that reverts. *)
Definition transact (tx : Call * Env) (w : World S) : World S :=
  match exec tx.1 tx.2 w with
  | (Ok _, w') => w'
  | (Revert _, _) => w
  end.

Definition run_trace (tr : list (Call * Env)) (w : World S) : World S :=
  foldl (fun w tx => transact tx w) w tr.

(** The registry ids handed out along a trace, in call order. *)
Fixpoint created_ids (tr : list (Call * Env)) (w : World S) : list N :=
  match tr with
  | [] => []
  | (CreateGroup n d i c, env) :: tr' =>
      match createGroup n d i c env w with
      | (Ok r, w') => r :: created_ids tr' w'
      | (Revert _, _) => created_ids tr' w
      end
  | tx :: tr' => created_ids tr' (transact tx w)
  end.

(** States the contract can be in: the freshly deployed one and whatever
    transactions make of it. *)
Inductive reachable : World S -> Prop :=
| reach_init (s0 : S) : reachable (initWorld s0)
| reach_step (tx : Call * Env) (w : World S) :
    reachable w -> reachable (transact tx w).

(** [tx] is a [joinGroup] for [registryId] sent by [user]. *)
Definition is_join (registryId user : N) (tx : Call * Env) : bool :=
  match tx with
  | (JoinGroup r _, env) =>
      bool_decide (r = registryId) && bool_decide (msg_sender env = user)
  | _ => false
  end.

Definition is_ok {A} (o : Result A * World S) : bool :=
  match o with
  | (Ok _, _) => true
  | (Revert _, _) => false
  end.

(** Some transaction of the trace is a [joinGroup] for [registryId] sent by
    [user] that returned. *)
Fixpoint joined_along (registryId user : N) (tr : list (Call * Env))
    (w : World S) : bool :=
  match tr with
  | [] => false
  | tx :: tr' =>
      (is_join registryId user tx && is_ok (exec tx.1 tx.2 w))
      || joined_along registryId user tr' (transact tx w)
  end.

(** The registry id a call works on: the one it names, or for
    [createGroup] the one it is about to hand out. *)
Definition call_target (c : Call) (st : WhispState) : N :=
  match c with
  | CreateGroup _ _ _ _ => nextGroupIndex st
  | JoinGroup r _ => r
  | ValidateSignal r _ => r
  end.

End Ledger.

(** The fields of a [SignalSent] event. *)
Record Signal := mkSignal {
  sig_registryId : N;
  sig_externalGroupId : N;
  sig_signalHash : N;
  sig_scopeHash : N;
  sig_nullifier : N;
  sig_timestamp : N
}.

Definition signal_of (e : Event) : option Signal :=
  match e with
  | SignalSent r g sh sc n t => Some (mkSignal r g sh sc n t)
  | _ => None
  end.

(** The signal carried by the most recent event, if it is a [SignalSent]. *)
Definition emitted_signal {S} (w : World S) : option Signal :=
  last (log w) ≫= signal_of.

(** ** A test double for the membership-proof service *)

Module FakeSemaphore.

(** Groups are numbered from [next_id]; members are kept as pairs. *)
Record state := mkState { next_id : N; members : list (N * N) }.

Definition new_group (s : state) : option (N * state) :=
  Some (next_id s, mkState (next_id s + 1) (members s)).

(** The zero commitment is rejected, any other is admitted. *)
Definition add_member (gid commitment : N) (s : state) : option state :=
  if decide (commitment = 0) then None
  else Some (mkState (next_id s) ((gid, commitment) :: members s)).

(** A proof is accepted when its opaque part names the group. *)
Definition check_proof (gid : N) (p : SemaphoreProof) (s : state) : option state :=
  if decide (points p = [gid]) then Some s else None.

#[export] Instance fake : ISemaphore state :=
  {| sem_createGroup := new_group;
     sem_addMember := add_member;
     sem_validateProof := check_proof |}.

Definition s0 : state := mkState 100 [].

(** A stand-in digest: a polynomial fold over the bytes. *)
Definition digest (b : list Byte.byte) : N :=
  foldl (fun acc x => acc * 257 + Byte.to_N x + 1) 7 b.

Definition alice : N := 10.
Definition bob : N := 11.

Definition hello : list Byte.byte := [Byte.x68; Byte.x65; Byte.x6c; Byte.x6c; Byte.x6f].
Definition daily : list Byte.byte := [Byte.x64; Byte.x61; Byte.x69; Byte.x6c; Byte.x79].

(** The world after two groups were created by [alice]. *)
Definition w2 : World state :=
  run_trace digest
    [(CreateGroup "zk-Builders" "" "" "DAO", mkEnv alice 1000);
     (CreateGroup "voters" "" "" "Vote", mkEnv alice 1001)]
    (initWorld s0).

(** Two proofs for group 0 with the same nullifier and different message
    and scope, one for group 1 with that nullifier, and one the double
    rejects. *)
Definition proofA : SemaphoreProof := mkProof 5 hello daily [100].
Definition proofB : SemaphoreProof := mkProof 5 daily hello [100].
Definition proofC : SemaphoreProof := mkProof 5 hello daily [101].
Definition proofBad : SemaphoreProof := mkProof 6 hello daily [].

Definition envBob : Env := mkEnv bob 2000.
Definition envBobLater : Env := mkEnv bob 3000.

(** [w2] after [bob] has submitted [proofA] for group 0. *)
Definition w3 : World state := (validateSignal digest 0 proofA envBob w2).2.

(** [w2] after [bob] has joined group 0 with commitment 77. *)
Definition w2j : World state := (joinGroup 0 77 envBob w2).2.

(** [w2] after [alice] has created a third group. *)
Definition w2c : World state := (createGroup "third" "" "" "" (mkEnv alice 2100) w2).2.

(** Further traffic. *)
Definition more : list (Call * Env) :=
  [(JoinGroup 0 78, mkEnv alice 2500);
   (CreateGroup "third" "" "" "", mkEnv bob 2600);
   (ValidateSignal 1 proofC, mkEnv alice 2700)].

(** Traffic in which [alice] joins group 2. *)
Definition joining : list (Call * Env) :=
  [(JoinGroup 2 0, mkEnv alice 2200);
   (JoinGroup 2 55, mkEnv bob 2300);
   (JoinGroup 2 56, mkEnv alice 2400)].

End FakeSemaphore.

(** ** Storage steps *)

(** The four shapes of the storage after a transaction. *)
Inductive storage_step (st : WhispState) : WhispState -> Prop :=
| step_none : storage_step st st
| step_create gid cr ts n d i c :
    nextGroupIndex st <> MAX_UINT256 ->
    storage_step st
      (mkWhisp (nextGroupIndex st + 1)
         (<[nextGroupIndex st := mkGroupInfo gid cr ts true n d i c]> (groups st))
         (hasJoined st) (nullifierUsed st))
| step_join r a :
    exists_ (groups_at st r) = true ->
    hasJoined_at st r a = false ->
    storage_step st
      (mkWhisp (nextGroupIndex st) (groups st)
         (<[(r, a) := true]> (hasJoined st)) (nullifierUsed st))
| step_signal r n :
    exists_ (groups_at st r) = true ->
    nullifierUsed_at st r n = false ->
    storage_step st
      (mkWhisp (nextGroupIndex st) (groups st) (hasJoined st)
         (<[(r, n) := true]> (nullifierUsed st))).

(** ** Well-formed storage *)

(** What every reachable storage satisfies: records sit exactly below
    [nextGroupIndex], and join markers and nullifier marks only belong to
    recorded groups. *)
Record wf (st : WhispState) : Prop := mkWf {
  wf_below : forall r, r < nextGroupIndex st -> exists_ (groups_at st r) = true;
  wf_above : forall r, nextGroupIndex st <= r -> groups st !! r = None;
  wf_joined : forall r a, hasJoined_at st r a = true -> r < nextGroupIndex st;
  wf_nullifier : forall r n, nullifierUsed_at st r n = true -> r < nextGroupIndex st;
  wf_bound : nextGroupIndex st <= MAX_UINT256
}.

(** ** Reading the event log and the call record *)

(** The record a [GroupCreated] event announces, with its registry id. *)
Definition record_of (e : Event) : option (N * GroupInfo) :=
  match e with
  | GroupCreated r g cr n d i c t => Some (r, mkGroupInfo g cr t true n d i c)
  | _ => None
  end.

(** The (registry id, account) pair of a [MemberJoined] event. *)
Definition joined_of (e : Event) : option (N * N) :=
  match e with
  | MemberJoined r _ m _ _ => Some (r, m)
  | _ => None
  end.

(** The (registry id, nullifier) pair of a [SignalSent] event. *)
Definition used_of (e : Event) : option (N * N) :=
  match e with
  | SignalSent r _ _ _ n _ => Some (r, n)
  | _ => None
  end.

(** The (service group id, commitment) pair of a [MemberJoined] event. *)
Definition member_of (e : Event) : option (N * N) :=
  match e with
  | MemberJoined _ g _ c _ => Some (g, c)
  | _ => None
  end.

(** The (service group id, commitment) pair of an [addMember] call. *)
Definition added_of (c : ExtCall) : option (N * N) :=
  match c with
  | CallAddMember g x => Some (g, x)
  | _ => None
  end.

(** The registry id and the service group id every event carries in its
    first two (indexed) fields. *)
Definition event_ids (e : Event) : N * N :=
  match e with
  | GroupCreated r g _ _ _ _ _ _ => (r, g)
  | MemberJoined r g _ _ _ => (r, g)
  | SignalSent r g _ _ _ _ => (r, g)
  end.

(** The timestamp field of an event. *)
Definition event_time (e : Event) : N :=
  match e with
  | GroupCreated _ _ _ _ _ _ _ t => t
  | MemberJoined _ _ _ _ t => t
  | SignalSent _ _ _ _ _ t => t
  end.

Section WorldSteps.
Context {S : Type} `{Sem : ISemaphore S}.
Variable keccak256 : list Byte.byte -> N.

(** The four shapes of the whole world after a transaction. *)
Inductive world_step (w : World S) : World S -> Prop :=
| wstep_none : world_step w w
| wstep_create gid s' env n d i c :
    sem_createGroup (semaphore w) = Some (gid, s') ->
    nextGroupIndex (contract w) <> MAX_UINT256 ->
    world_step w
      (mkWorld
         (mkWhisp (nextGroupIndex (contract w) + 1)
            (<[nextGroupIndex (contract w) :=
                 mkGroupInfo gid (msg_sender env) (uint64 (block_timestamp env))
                   true n d i c]> (groups (contract w)))
            (hasJoined (contract w)) (nullifierUsed (contract w)))
         s'
         (log w ++ [GroupCreated (nextGroupIndex (contract w)) gid (msg_sender env)
                      n d i c (uint64 (block_timestamp env))])
         (extcalls w ++ [CallCreateGroup]))
| wstep_join r c env s' :
    exists_ (groups_at (contract w) r) = true ->
    hasJoined_at (contract w) r (msg_sender env) = false ->
    sem_addMember (groupId (groups_at (contract w) r)) c (semaphore w) = Some s' ->
    world_step w
      (mkWorld
         (mkWhisp (nextGroupIndex (contract w)) (groups (contract w))
            (<[(r, msg_sender env) := true]> (hasJoined (contract w)))
            (nullifierUsed (contract w)))
         s'
         (log w ++ [MemberJoined r (groupId (groups_at (contract w) r))
                      (msg_sender env) c (uint64 (block_timestamp env))])
         (extcalls w ++ [CallAddMember (groupId (groups_at (contract w) r)) c]))
| wstep_signal r p env s' :
    exists_ (groups_at (contract w) r) = true ->
    nullifierUsed_at (contract w) r (nullifier p) = false ->
    sem_validateProof (groupId (groups_at (contract w) r)) p (semaphore w) = Some s' ->
    world_step w
      (mkWorld
         (mkWhisp (nextGroupIndex (contract w)) (groups (contract w))
            (hasJoined (contract w))
            (<[(r, nullifier p) := true]> (nullifierUsed (contract w))))
         s'
         (log w ++ [SignalSent r (groupId (groups_at (contract w) r))
                      (fieldHash keccak256 (message p))
                      (fieldHash keccak256 (scope p))
                      (nullifier p) (uint64 (block_timestamp env))])
         (extcalls w ++ [CallValidateProof (groupId (groups_at (contract w) r)) p])).

(** What a [validateProof] call and a [SignalSent] event say about one
    signal: the service group id, the nullifier and the two field hashes. *)
Definition checked_of (c : ExtCall) : option (N * N * N * N) :=
  match c with
  | CallValidateProof g p =>
      Some (g, nullifier p, fieldHash keccak256 (message p),
            fieldHash keccak256 (scope p))
  | _ => None
  end.

Definition sent_of (e : Event) : option (N * N * N * N) :=
  match e with
  | SignalSent _ g sh sc n _ => Some (g, n, sh, sc)
  | _ => None
  end.

(** The listing of the [groups] table in id order. *)
Definition groups_table (st : WhispState) : list (N * GroupInfo) :=
  (fun k => (N.of_nat k, groups_at st (N.of_nat k)))
    <$> seq 0 (N.to_nat (nextGroupIndex st)).

End WorldSteps.

(** * The front end's log scanning *)

Local Open Scope Z_scope.

(** What an [await] yields: a value, or a thrown error. *)
Inductive Outcome (E A : Type) :=
| Returned (a : A)
| Thrown (e : E).
Arguments Returned {E A} a.
Arguments Thrown {E A} e.

(** [hay.includes(needle)]. *)
Fixpoint includes (needle hay : string) : bool :=
  String.prefix needle hay ||
  match hay with
  | EmptyString => false
  | String _ rest => includes needle rest
  end.

(** [Number(n)] of a [bigint] [n >= 0] below [2^1024] (a [uint256] is):
    the nearest double, ties to the even significand, as the integer it
    stands for. Below [2^53] it is [n] itself; from there on the bits
    under the top 53 are rounded away. *)
Definition Number (n : N) : N :=
  if (n <? 2 ^ 53)%N then n
  else
    let dropped := (N.size n - 53)%N in
    let significand := N.shiftr n dropped in
    let rest := (n mod 2 ^ dropped)%N in
    let half := (2 ^ (dropped - 1))%N in
    let rounded :=
      if (half <? rest)%N || ((rest =? half)%N && N.odd significand)
      then (significand + 1)%N else significand in
    N.shiftl rounded dropped.

(** ** utils/scaffold-eth/fetchLogsInChunks.ts *)

Module FetchLogs.

(** The two fields of a thrown error the function looks at. *)
Record RpcError := mkRpcError {
  message : option string;
  details : option string
}.

(** [error?.message?.includes("block range") ||
     error?.details?.includes("block range")]. *)
Definition is_block_range (error : RpcError) : bool :=
  match message error with
  | Some m => includes "block range" m
  | None => false
  end
  ||
  match details error with
  | Some d => includes "block range" d
  | None => false
  end.

Section Client.
(** The RPC client: its state [C], the logs [L] it serves, and
    [client.getLogs] over a block range. Block numbers are [bigint]s;
    [chunkSize] is a [number] holding an integer. *)
Context {C L : Type}.
Variable getLogs : C -> Z -> Z -> Outcome RpcError (list L) * C.

(** The [while] loop. [retry] is the recursive call with half the chunk
    size; [fuel] bounds the number of iterations, [None] meaning that it
    ran out. *)
Fixpoint chunk_loop
    (retry : Z -> Z -> C -> option (Outcome RpcError (list L) * C))
    (fuel : nat) (latestBlock chunkSize currentBlock : Z)
    (allLogs : list L) (c : C) : option (Outcome RpcError (list L) * C) :=
  if currentBlock <=? latestBlock then
    match fuel with
    | O => None
    | Datatypes.S fuel' =>
        let endBlock :=
          if currentBlock + chunkSize - 1 >? latestBlock then latestBlock
          else currentBlock + chunkSize - 1 in
        match getLogs c currentBlock endBlock with
        | (Returned logs, c') =>
            chunk_loop retry fuel' latestBlock chunkSize (endBlock + 1)
              (allLogs ++ logs) c'
        | (Thrown error, c') =>
            if is_block_range error then
              match retry currentBlock endBlock c' with
              | Some (Returned smallerChunkLogs, c'') =>
                  chunk_loop retry fuel' latestBlock chunkSize (endBlock + 1)
                    (allLogs ++ smallerChunkLogs) c''
              | Some (Thrown e, c'') => Some (Thrown e, c'')
              | None => None
              end
            else Some (Thrown error, c')
        end
    end
  else Some (Returned allLogs, c).

Fixpoint fetchLogsInChunks (fuel : nat) (fromBlock toBlock chunkSize : Z) (c : C)
    : option (Outcome RpcError (list L) * C) :=
  match fuel with
  | O => None
  | Datatypes.S fuel' =>
      let latestBlock := toBlock in
      let totalBlocks := latestBlock - fromBlock + 1 in
      if totalBlocks <=? chunkSize then Some (getLogs c fromBlock latestBlock)
      else
        chunk_loop
          (fun f t => fetchLogsInChunks fuel' f t (chunkSize `div` 2))
          fuel' latestBlock chunkSize fromBlock [] c
  end.

(** The same loop and function, handing back the client as it stands when
    the steps run out, so that the requests of a run that does not end can
    be looked at after any number of steps. *)
Fixpoint chunk_loop_upto
    (retry : Z -> Z -> C -> option (Outcome RpcError (list L)) * C)
    (fuel : nat) (latestBlock chunkSize currentBlock : Z)
    (allLogs : list L) (c : C) : option (Outcome RpcError (list L)) * C :=
  if currentBlock <=? latestBlock then
    match fuel with
    | O => (None, c)
    | Datatypes.S fuel' =>
        let endBlock :=
          if currentBlock + chunkSize - 1 >? latestBlock then latestBlock
          else currentBlock + chunkSize - 1 in
        match getLogs c currentBlock endBlock with
        | (Returned logs, c') =>
            chunk_loop_upto retry fuel' latestBlock chunkSize (endBlock + 1)
              (allLogs ++ logs) c'
        | (Thrown error, c') =>
            if is_block_range error then
              match retry currentBlock endBlock c' with
              | (Some (Returned smallerChunkLogs), c'') =>
                  chunk_loop_upto retry fuel' latestBlock chunkSize (endBlock + 1)
                    (allLogs ++ smallerChunkLogs) c''
              | (Some (Thrown e), c'') => (Some (Thrown e), c'')
              | (None, c'') => (None, c'')
              end
            else (Some (Thrown error), c')
        end
    end
  else (Some (Returned allLogs), c).

Fixpoint fetchLogsInChunks_upto (fuel : nat) (fromBlock toBlock chunkSize : Z) (c : C)
    : option (Outcome RpcError (list L)) * C :=
  match fuel with
  | O => (None, c)
  | Datatypes.S fuel' =>
      let latestBlock := toBlock in
      let totalBlocks := latestBlock - fromBlock + 1 in
      if totalBlocks <=? chunkSize then
        let (o, c') := getLogs c fromBlock latestBlock in (Some o, c')
      else
        chunk_loop_upto
          (fun f t => fetchLogsInChunks_upto fuel' f t (chunkSize `div` 2))
          fuel' latestBlock chunkSize fromBlock [] c
  end.

(** A run that ended, without the client of a run that did not. *)
Definition ended (r : option (Outcome RpcError (list L)) * C)
    : option (Outcome RpcError (list L) * C) :=
  match r with
  | (Some o, c) => Some (o, c)
  | (None, _) => None
  end.

(** The client with a record of the ranges it was asked for. *)
Definition traced (cr : C * list (Z * Z)) (a b : Z)
    : Outcome RpcError (list L) * (C * list (Z * Z)) :=
  let (o, c') := getLogs cr.1 a b in (o, (c', cr.2 ++ [(a, b)])).

(** The logs of the blocks [a .. b], block by block. *)
Definition range_logs (block_logs : Z -> list L) (a b : Z) : list L :=
  seqZ a (b - a + 1) ≫= block_logs.

End Client.

(** A request [(a, b)] stays inside [fromBlock .. toBlock] and spans at
    most [chunkSize] blocks. *)
Definition within (fromBlock toBlock chunkSize : Z) (ab : Z * Z) : Prop :=
  fromBlock <= ab.1 /\ ab.2 <= toBlock /\ ab.2 - ab.1 + 1 <= chunkSize.

End FetchLogs.

(** ** The decoded [MemberJoined] logs and the client's calls *)

(** The [args] of a decoded log; a field the decoder could not fill is
    [undefined]. *)
Record LogArgs := mkLogArgs {
  arg_registryId : option N;
  arg_member : option N;
  arg_commitment : option N
}.

Record DecodedLog := mkDecodedLog { args : option LogArgs }.

(** The [args] filter of a [getLogs] request. *)
Record LogFilter := mkLogFilter {
  filter_registryId : option N;
  filter_member : option N
}.

(** [new Error(msg)]. *)
Definition new_Error (msg : string) : FetchLogs.RpcError :=
  FetchLogs.mkRpcError (Some msg) None.

(** ** utils/semaphore/groupMembers.ts *)

Module GroupMembers.

Definition fromBlock (latestBlock : Z) : Z :=
  if latestBlock >? 10000 then latestBlock - 10000 else 0.

Definition no_members : string :=
  "No members found in this group. Make sure you've joined and the transaction is confirmed.".

(** The loop over the events: a commitment is pushed when [event.args]
    and [event.args.commitment] are truthy, that is, defined and not
    [0n]. *)
Definition collect (events : list DecodedLog) : list N :=
  foldl
    (fun commitments event =>
       match args event with
       | Some a =>
           match arg_commitment a with
           | Some cm => if (cm =? 0)%N then commitments else commitments ++ [cm]
           | None => commitments
           end
       | None => commitments
       end)
    [] events.

Section Fetch.
Context {C : Type}.
Variable getBlockNumber : C -> Outcome FetchLogs.RpcError Z * C.
Variable getLogs :
  C -> LogFilter -> Z -> Z -> Outcome FetchLogs.RpcError (list DecodedLog) * C.

(** [fetchGroupMembers] from the point where the client exists; an error
    caught by the outer [try] is logged and thrown again. *)
Definition fetchGroupMembers (registryId : N) (c : C)
    : Outcome FetchLogs.RpcError (list N) * C :=
  match getBlockNumber c with
  | (Thrown e, c1) => (Thrown e, c1)
  | (Returned latestBlock, c1) =>
      let fromBlock := fromBlock latestBlock in
      match getLogs c1 (mkLogFilter (Some registryId) None) fromBlock latestBlock with
      | (Thrown e, c2) => (Thrown e, c2)
      | (Returned events, c2) =>
          let commitments := collect events in
          if (length commitments =? 0)%nat
          then (Thrown (new_Error no_members), c2)
          else (Returned commitments, c2)
      end
  end.

End Fetch.

(** The commitments the events carry, zero ones left out. *)
Definition nonzero_commitments (events : list DecodedLog) : list N :=
  filter (fun cm => cm <> 0%N) (omap (fun event => args event ≫= arg_commitment) events).

End GroupMembers.

(** ** utils/semaphore/userGroups.ts *)

Module UserGroups.

Definition fromBlock (latestBlock : Z) : Z :=
  if latestBlock - 10000 >? 0 then latestBlock - 10000 else 0.

(** [type GroupWithRegistryId]. *)
Record GroupWithRegistryId := mkGroup {
  registryId : N;
  groupId : N;
  creator : N;
  createdAt : N;
  exists_ : bool
}.

(** [Set.add]: a [Set] keeps its elements in insertion order. *)
Definition set_add (x : N) (s : list N) : list N :=
  if decide (x ∈ s) then s else s ++ [x].

(** The unique registry ids of the events, each as the [number]
    [Number(event.args.registryId)]. *)
Definition collect (events : list DecodedLog) : list N :=
  foldl
    (fun registryIds event =>
       match args event with
       | Some a =>
           match arg_registryId a with
           | Some r => set_add (Number r) registryIds
           | None => registryIds
           end
       | None => registryIds
       end)
    [] events.

Section Fetch.
Context {C : Type}.
Variable getBlockNumber : C -> Outcome FetchLogs.RpcError Z * C.
Variable getLogs :
  C -> LogFilter -> Z -> Z -> Outcome FetchLogs.RpcError (list DecodedLog) * C.
(** [readContract] of the [groups] getter at [BigInt(registryId)]: the
    first four fields. *)
Variable readGroups :
  C -> N -> Outcome FetchLogs.RpcError (option (N * N * N * bool)) * C.

(** The loop over the registry ids. *)
Fixpoint read_all (registryIds : list N) (groups : list GroupWithRegistryId) (c : C)
    : Outcome FetchLogs.RpcError (list GroupWithRegistryId) * C :=
  match registryIds with
  | [] => (Returned groups, c)
  | r :: rest =>
      match readGroups c r with
      | (Thrown e, c') => (Thrown e, c')
      | (Returned groupData, c') =>
          let groups' :=
            match groupData with
            | Some (gid, cr, at_, true) => groups ++ [mkGroup r gid cr at_ true]
            | _ => groups
            end in
          read_all rest groups' c'
      end
  end.

(** [fetchUserGroups] from the point where the client exists; [fuel]
    bounds the steps of the chunked scan. *)
Definition fetchUserGroups (fuel : nat) (userAddress : N) (c : C)
    : option (Outcome FetchLogs.RpcError (list GroupWithRegistryId) * C) :=
  match getBlockNumber c with
  | (Thrown e, c1) => Some (Thrown e, c1)
  | (Returned latestBlock, c1) =>
      let fromBlock := fromBlock latestBlock in
      match FetchLogs.fetchLogsInChunks
              (fun c' a b => getLogs c' (mkLogFilter None (Some userAddress)) a b)
              fuel fromBlock latestBlock 2000 c1 with
      | None => None
      | Some (Thrown e, c2) => Some (Thrown e, c2)
      | Some (Returned events, c2) => Some (read_all (collect events) [] c2)
      end
  end.

End Fetch.
End UserGroups.

Local Close Scope Z_scope.

(** ** The "My Groups" page *)

Module MyGroups.
Section Reads.
(** [readContract] of the [hasJoined] getter; [None] when the read
    throws, which the loop catches and logs. *)
Variable readHasJoined : N -> N -> option bool.

(** The [for] loop, [remaining] being [totalGroups - i]. *)
Fixpoint checkMembership_loop (remaining : nat) (i address : N) (joined : list N)
    : list N :=
  match remaining with
  | O => joined
  | Datatypes.S k =>
      let joined' :=
        match readHasJoined i address with
        | Some true => joined ++ [i]
        | _ => joined
        end in
      checkMembership_loop k (i + 1) address joined'
  end.

Definition checkMembership (nextGroupIndex address : N) : list N :=
  let totalGroups := nextGroupIndex in
  checkMembership_loop (N.to_nat totalGroups) 0 address [].

(** The effect: what [myGroupIds] is set to. A missing address or counter
    is [None]; a counter of [0n] is falsy too. *)
Definition myGroupIds (address : option N) (isConnected : bool)
    (nextGroupIndex : option N) (publicClient whispContract : bool) : list N :=
  match address, nextGroupIndex with
  | Some a, Some n =>
      if negb isConnected || (n =? 0) || negb publicClient || negb whispContract
      then []
      else checkMembership n a
  | _, _ => []
  end.

End Reads.

(** Reads answered from one state of the contract's storage. *)
Definition snapshot (st : WhispState) (r a : N) : option bool :=
  Some (hasJoined_at st r a).

End MyGroups.

(** ** Forgetting who sent a signal *)

(** The same transaction with the sender of a [validateSignal] replaced
    by [who]. *)
Definition resend (who : N) (tx : Call * Env) : Call * Env :=
  match tx with
  | (ValidateSignal r p, env) => (ValidateSignal r p, mkEnv who (block_timestamp env))
  | _ => tx
  end.

(** ** The "Create Group" page *)

Module CreateGroupPage.

(** The registry id [handleCreate] files the metadata under: the value of
    [nextGroupIndex] the page last read, [0] when there is none or it is
    [0n]. *)
Definition registryId (nextGroupIndex : option N) : N :=
  match nextGroupIndex with
  | Some n => if n =? 0 then 0 else n
  | None => 0
  end.

End CreateGroupPage.

(** ** Sample worlds and clients *)

Module Samples.

(** A deployment with two groups, a join and a signal in each. *)
Definition busy : World FakeSemaphore.state :=
  run_trace (Sem := FakeSemaphore.fake) FakeSemaphore.digest
    [(CreateGroup "zk-Builders" "" "" "DAO", mkEnv FakeSemaphore.alice 1000);
     (CreateGroup "voters" "" "" "Vote", mkEnv FakeSemaphore.alice 1001);
     (JoinGroup 0 77, FakeSemaphore.envBob);
     (ValidateSignal 0 FakeSemaphore.proofA, FakeSemaphore.envBob);
     (JoinGroup 1 5, mkEnv FakeSemaphore.alice 2500);
     (ValidateSignal 1 FakeSemaphore.proofC, mkEnv FakeSemaphore.alice 2700)]
    (initWorld FakeSemaphore.s0).

(** The test double with room for two groups only. *)
Definition capped_new_group (s : FakeSemaphore.state) : option (N * FakeSemaphore.state) :=
  if decide (FakeSemaphore.next_id s < 102) then FakeSemaphore.new_group s else None.

Definition capped : ISemaphore FakeSemaphore.state :=
  {| sem_createGroup := capped_new_group;
     sem_addMember := FakeSemaphore.add_member;
     sem_validateProof := FakeSemaphore.check_proof |}.

Local Open Scope Z_scope.

(** A chain with one log, its own number, in every even block; the client
    counts the requests it has served. *)
Definition even_logs (b : Z) : list Z := if Z.even b then [b] else [].

Definition archive (c : nat) (a b : Z) : Outcome FetchLogs.RpcError (list Z) * nat :=
  (Returned (FetchLogs.range_logs even_logs a b), Datatypes.S c).

Definition too_wide : FetchLogs.RpcError :=
  FetchLogs.mkRpcError None (Some "query exceeds max block range 4").

(** The same chain behind a provider that serves at most [limit] blocks
    per request. *)
Definition limited (limit : Z) (c : nat) (a b : Z)
    : Outcome FetchLogs.RpcError (list Z) * nat :=
  if b - a + 1 >? limit then (Thrown too_wide, Datatypes.S c)
  else (Returned (FetchLogs.range_logs even_logs a b), Datatypes.S c).

(** [MemberJoined] logs of [alice]: two for group 0, one for group 1 with
    commitment 0, one for an id without record, one left undecoded. *)
Definition member_logs (b : Z) : list DecodedLog :=
  if b =? 15010 then
    [mkDecodedLog (Some (mkLogArgs (Some 0%N) (Some FakeSemaphore.alice) (Some 77%N)));
     mkDecodedLog (Some (mkLogArgs (Some 1%N) (Some FakeSemaphore.alice) (Some 0%N)))]
  else if b =? 20000 then
    [mkDecodedLog None;
     mkDecodedLog (Some (mkLogArgs (Some 0%N) (Some FakeSemaphore.alice) (Some 78%N)));
     mkDecodedLog (Some (mkLogArgs (Some 5%N) (Some FakeSemaphore.alice) (Some 79%N)))]
  else [].

Definition matches (f : LogFilter) (l : DecodedLog) : bool :=
  match args l with
  | Some a =>
      match filter_registryId f with
      | Some r => bool_decide (arg_registryId a = Some r)
      | None => true
      end
      &&
      match filter_member f with
      | Some m => bool_decide (arg_member a = Some m)
      | None => true
      end
  | None => true
  end.

Definition head (c : nat) : Outcome FetchLogs.RpcError Z * nat :=
  (Returned 25000, c).

Definition node (c : nat) (f : LogFilter) (a b : Z)
    : Outcome FetchLogs.RpcError (list DecodedLog) * nat :=
  (Returned (filter (fun l => matches f l = true)
               (FetchLogs.range_logs member_logs a b)), Datatypes.S c).

(** The [groups] getter answered from [busy]. *)
Definition groups_getter (c : nat) (r : N)
    : Outcome FetchLogs.RpcError (option (N * N * N * bool)) * nat :=
  let g := groups_at (contract busy) r in
  (Returned (Some (groupId g, creator g, createdAt g, exists_ g)), c).

End Samples.

(** * Properties *)

Section Properties.
Context {S : Type} `{Sem : ISemaphore S}.
Variable keccak256 : list Byte.byte -> N.

Implicit Types (w : World S) (st : WhispState) (env : Env) (p : SemaphoreProof).

(** ** Each entry point as one equation *)

Lemma createGroup_eq n d i c env w :
  createGroup n d i c env w =
  let calls := extcalls w ++ [CallCreateGroup] in
  match sem_createGroup (semaphore w) with
  | None =>
      (Revert (UpstreamReverted CallCreateGroup),
       mkWorld (contract w) (semaphore w) (log w) calls)
  | Some (gid, s') =>
      let st := contract w in
      let r := nextGroupIndex st in
      let ts := uint64 (block_timestamp env) in
      if decide (r = MAX_UINT256)
      then (Revert (Panic 17), mkWorld st s' (log w) calls)
      else
        (Ok r,
         mkWorld
           (mkWhisp (r + 1)
              (<[r := mkGroupInfo gid (msg_sender env) ts true n d i c]> (groups st))
              (hasJoined st) (nullifierUsed st))
           s'
           (log w ++ [GroupCreated r gid (msg_sender env) n d i c ts])
           calls)
  end.
Proof.
  unfold createGroup, semaphore_createGroup, nextGroupIndex_postincr, groups_set,
    external, bind, get, put, emit, ret, revert.
  destruct (sem_createGroup (semaphore w)) as [[gid s']|]; cbn; [|reflexivity].
  destruct (decide (nextGroupIndex (contract w) = MAX_UINT256)); reflexivity.
Qed.

Lemma joinGroup_eq r c env w :
  joinGroup r c env w =
  let st := contract w in
  let g := groups_at st r in
  let call := CallAddMember (groupId g) c in
  if exists_ g then
    if hasJoined_at st r (msg_sender env)
    then (Revert (RequireFailed "Already joined"), w)
    else
      match sem_addMember (groupId g) c (semaphore w) with
      | None =>
          (Revert (UpstreamReverted call),
           mkWorld st (semaphore w) (log w) (extcalls w ++ [call]))
      | Some s' =>
          (Ok tt,
           mkWorld
             (mkWhisp (nextGroupIndex st) (groups st)
                (<[(r, msg_sender env) := true]> (hasJoined st)) (nullifierUsed st))
             s'
             (log w ++ [MemberJoined r (groupId g) (msg_sender env) c
                          (uint64 (block_timestamp env))])
             (extcalls w ++ [call]))
      end
  else (Revert (RequireFailed "Group not found"), w).
Proof.
  unfold joinGroup, semaphore_addMember, hasJoined_set, external, require,
    bind, get, put, emit, ret, revert; cbn.
  destruct (exists_ (groups_at (contract w) r)); cbn; [|reflexivity].
  destruct (hasJoined_at (contract w) r (msg_sender env)); cbn; [reflexivity|].
  destruct (sem_addMember _ c (semaphore w)); reflexivity.
Qed.

Lemma validateSignal_eq r p env w :
  validateSignal keccak256 r p env w =
  let st := contract w in
  let g := groups_at st r in
  let call := CallValidateProof (groupId g) p in
  if exists_ g then
    if nullifierUsed_at st r (nullifier p)
    then (Revert (RequireFailed "Nullifier already used"), w)
    else
      match sem_validateProof (groupId g) p (semaphore w) with
      | None =>
          (Revert (UpstreamReverted call),
           mkWorld st (semaphore w) (log w) (extcalls w ++ [call]))
      | Some s' =>
          (Ok tt,
           mkWorld
             (mkWhisp (nextGroupIndex st) (groups st) (hasJoined st)
                (<[(r, nullifier p) := true]> (nullifierUsed st)))
             s'
             (log w ++ [SignalSent r (groupId g)
                          (fieldHash keccak256 (message p))
                          (fieldHash keccak256 (scope p))
                          (nullifier p) (uint64 (block_timestamp env))])
             (extcalls w ++ [call]))
      end
  else (Revert (RequireFailed "Group not found"), w).
Proof.
  unfold validateSignal, semaphore_validateProof, nullifierUsed_set, external,
    require, bind, get, put, emit, ret, revert; cbn.
  destruct (exists_ (groups_at (contract w) r)); cbn; [|reflexivity].
  destruct (nullifierUsed_at (contract w) r (nullifier p)); cbn; [reflexivity|].
  destruct (sem_validateProof _ p (semaphore w)); reflexivity.
Qed.

(** ** Reading a mapping after a write *)

Lemma groups_at_insert st r r' g nx hj nu :
  groups_at (mkWhisp nx (<[r := g]> (groups st)) hj nu) r' =
  if decide (r = r') then g else groups_at st r'.
Proof.
  unfold groups_at; cbn. rewrite lookup_insert.
  destruct (decide (r = r')); reflexivity.
Qed.

Lemma hasJoined_at_insert st k r a nx gs nu :
  hasJoined_at (mkWhisp nx gs (<[k := true]> (hasJoined st)) nu) r a =
  if decide (k = (r, a)) then true else hasJoined_at st r a.
Proof.
  unfold hasJoined_at; cbn. rewrite lookup_insert.
  destruct (decide (k = (r, a))); reflexivity.
Qed.

Lemma nullifierUsed_at_insert st k r n nx gs hj :
  nullifierUsed_at (mkWhisp nx gs hj (<[k := true]> (nullifierUsed st))) r n =
  if decide (k = (r, n)) then true else nullifierUsed_at st r n.
Proof.
  unfold nullifierUsed_at; cbn. rewrite lookup_insert.
  destruct (decide (k = (r, n))); reflexivity.
Qed.

(** ** What a transaction can do to the storage *)

Lemma transact_storage tx w :
  storage_step (contract w) (contract (transact keccak256 tx w)).
Proof.
  destruct tx as [[n d i c | r c | r p] env]; unfold transact; cbn [exec fst snd].
  - unfold bind, ret. rewrite createGroup_eq; cbn.
    destruct (sem_createGroup (semaphore w)) as [[gid s']|]; [|constructor].
    destruct (decide (nextGroupIndex (contract w) = MAX_UINT256)); cbn;
      [constructor | by apply step_create].
  - rewrite joinGroup_eq; cbn.
    destruct (exists_ (groups_at (contract w) r)) eqn:He; [|constructor].
    destruct (hasJoined_at (contract w) r (msg_sender env)) eqn:Hj; [constructor|].
    destruct (sem_addMember _ c (semaphore w)); cbn; [by apply step_join | constructor].
  - rewrite validateSignal_eq; cbn.
    destruct (exists_ (groups_at (contract w) r)) eqn:He; [|constructor].
    destruct (nullifierUsed_at (contract w) r (nullifier p)) eqn:Hn; [constructor|].
    destruct (sem_validateProof _ p (semaphore w)); cbn; [by apply step_signal | constructor].
Qed.

(** Records, join markers and nullifier marks are never taken back. *)
Lemma storage_step_exists st st' r :
  storage_step st st' ->
  exists_ (groups_at st r) = true -> exists_ (groups_at st' r) = true.
Proof.
  intros [] He; try assumption.
  rewrite groups_at_insert. by destruct (decide _).
Qed.

Lemma storage_step_joined st st' r a :
  storage_step st st' ->
  hasJoined_at st r a = true -> hasJoined_at st' r a = true.
Proof.
  intros [] Hj; try assumption.
  rewrite hasJoined_at_insert. by destruct (decide _).
Qed.

Lemma storage_step_nullifier st st' r n :
  storage_step st st' ->
  nullifierUsed_at st r n = true -> nullifierUsed_at st' r n = true.
Proof.
  intros [] Hn; try assumption.
  rewrite nullifierUsed_at_insert. by destruct (decide _).
Qed.

Lemma storage_step_wf st st' : storage_step st st' -> wf st -> wf st'.
Proof.
  intros Hstep [Hb Ha Hj Hn Hm].
  destruct Hstep as [| gid cr ts n d i c Hmax | r a He Hnj | r n He Hnu].
  - by constructor.
  - constructor; cbn.
    + intros r Hr. rewrite groups_at_insert.
      destruct (decide _); [done|]. apply Hb. lia.
    + intros r Hr. rewrite lookup_insert_ne by lia. apply Ha. lia.
    + intros r a Hr. apply Hj in Hr. lia.
    + intros r n' Hr. apply Hn in Hr. lia.
    + unfold MAX_UINT256 in *. lia.
  - constructor; cbn; try done.
    intros r' a'. rewrite hasJoined_at_insert.
    destruct (decide _) as [[= <- <-]|]; [|by apply Hj].
    intros _. destruct (N.lt_ge_cases r (nextGroupIndex st)) as [|Hge]; [done|].
    apply Ha in Hge. unfold groups_at in He. by rewrite Hge in He.
  - constructor; cbn; try done.
    intros r' n'. rewrite nullifierUsed_at_insert.
    destruct (decide _) as [[= <- <-]|]; [|by apply Hn].
    intros _. destruct (N.lt_ge_cases r (nextGroupIndex st)) as [|Hge]; [done|].
    apply Ha in Hge. unfold groups_at in He. by rewrite Hge in He.
Qed.

Lemma initWhisp_wf : wf initWhisp.
Proof.
  constructor; cbn; try done; try lia.
Qed.

Lemma reachable_wf w : reachable keccak256 w -> wf (contract w).
Proof.
  induction 1 as [s0 | tx w _ IH].
  - apply initWhisp_wf.
  - eapply storage_step_wf; [apply transact_storage | exact IH].
Qed.

(** A property kept by every transaction is kept along a trace. *)
Lemma run_trace_ind (P : World S -> Prop) :
  (forall tx w, P w -> P (transact keccak256 tx w)) ->
  forall tr w, P w -> P (run_trace keccak256 tr w).
Proof.
  intros Hstep tr. induction tr as [|tx tr IH]; intros w Hw; [exact Hw|].
  cbn. apply IH, Hstep, Hw.
Qed.

Lemma run_trace_exists tr w r :
  exists_ (groups_at (contract w) r) = true ->
  exists_ (groups_at (contract (run_trace keccak256 tr w)) r) = true.
Proof.
  apply (run_trace_ind (fun w' => exists_ (groups_at (contract w') r) = true)).
  intros tx w'. apply storage_step_exists, transact_storage.
Qed.

Lemma run_trace_joined tr w r a :
  hasJoined_at (contract w) r a = true ->
  hasJoined_at (contract (run_trace keccak256 tr w)) r a = true.
Proof.
  apply (run_trace_ind (fun w' => hasJoined_at (contract w') r a = true)).
  intros tx w'. apply storage_step_joined, transact_storage.
Qed.

Lemma run_trace_nullifier tr w r n :
  nullifierUsed_at (contract w) r n = true ->
  nullifierUsed_at (contract (run_trace keccak256 tr w)) r n = true.
Proof.
  apply (run_trace_ind (fun w' => nullifierUsed_at (contract w') r n = true)).
  intros tx w'. apply storage_step_nullifier, transact_storage.
Qed.

Lemma run_trace_reachable tr w :
  reachable keccak256 w -> reachable keccak256 (run_trace keccak256 tr w).
Proof.
  apply run_trace_ind. intros tx w'. apply reach_step.
Qed.

(** ** Single use of a nullifier *)

Lemma validateSignal_ok_inv r p env w u w1 :
  validateSignal keccak256 r p env w = (Ok u, w1) ->
  exists_ (groups_at (contract w) r) = true /\
  nullifierUsed_at (contract w) r (nullifier p) = false /\
  exists s',
    sem_validateProof (groupId (groups_at (contract w) r)) p (semaphore w) = Some s' /\
    w1 = mkWorld
           (mkWhisp (nextGroupIndex (contract w)) (groups (contract w))
              (hasJoined (contract w))
              (<[(r, nullifier p) := true]> (nullifierUsed (contract w))))
           s'
           (log w ++ [SignalSent r (groupId (groups_at (contract w) r))
                        (fieldHash keccak256 (message p))
                        (fieldHash keccak256 (scope p))
                        (nullifier p) (uint64 (block_timestamp env))])
           (extcalls w ++ [CallValidateProof (groupId (groups_at (contract w) r)) p]).
Proof.
  rewrite validateSignal_eq; cbn.
  destruct (exists_ (groups_at (contract w) r)); [|discriminate].
  destruct (nullifierUsed_at (contract w) r (nullifier p)); [discriminate|].
  destruct (sem_validateProof _ p (semaphore w)) as [s'|]; [|discriminate].
  intros [= <- <-]. eauto.
Qed.

Lemma joinGroup_ok_inv r c env w u w1 :
  joinGroup r c env w = (Ok u, w1) ->
  exists_ (groups_at (contract w) r) = true /\
  hasJoined_at (contract w) r (msg_sender env) = false /\
  exists s',
    sem_addMember (groupId (groups_at (contract w) r)) c (semaphore w) = Some s' /\
    w1 = mkWorld
           (mkWhisp (nextGroupIndex (contract w)) (groups (contract w))
              (<[(r, msg_sender env) := true]> (hasJoined (contract w)))
              (nullifierUsed (contract w)))
           s'
           (log w ++ [MemberJoined r (groupId (groups_at (contract w) r))
                        (msg_sender env) c (uint64 (block_timestamp env))])
           (extcalls w ++ [CallAddMember (groupId (groups_at (contract w) r)) c]).
Proof.
  rewrite joinGroup_eq; cbn.
  destruct (exists_ (groups_at (contract w) r)); [|discriminate].
  destruct (hasJoined_at (contract w) r (msg_sender env)); [discriminate|].
  destruct (sem_addMember _ c (semaphore w)) as [s'|]; [|discriminate].
  intros [= <- <-]. eauto.
Qed.

(** C1: once [validateSignal] has returned for registry id [r] with
    nullifier [n], the mark for [(r, n)] stays set along every later trace of
    transactions, and every later [validateSignal] for [r] whose proof
    carries [n] (whatever its message, scope and other fields, and whatever
    the service would answer) fails on the "Nullifier already used" check
    and hands back the world untouched: in particular no external call was
    recorded, the verifier was not invoked. *)
Theorem validateSignal_nullifier_once r p env w u w1 tr p' env' :
  validateSignal keccak256 r p env w = (Ok u, w1) ->
  nullifier p' = nullifier p ->
  nullifierUsed_at (contract (run_trace keccak256 tr w1)) r (nullifier p) = true /\
  validateSignal keccak256 r p' env' (run_trace keccak256 tr w1) =
    (Revert (RequireFailed "Nullifier already used"), run_trace keccak256 tr w1).
Proof.
  intros Hok Hn.
  apply validateSignal_ok_inv in Hok as (He & _ & s' & _ & Hw1).
  assert (He1 : exists_ (groups_at (contract w1) r) = true)
    by (subst w1; exact He).
  assert (Hn1 : nullifierUsed_at (contract w1) r (nullifier p) = true).
  { subst w1; cbn. rewrite nullifierUsed_at_insert. by destruct (decide _). }
  apply (run_trace_exists tr) in He1. apply (run_trace_nullifier tr) in Hn1.
  split; [exact Hn1|].
  rewrite validateSignal_eq; cbn. rewrite He1, Hn, Hn1. reflexivity.
Qed.

(** ** Single join per account *)

(** C3: [joinGroup] fails on the "Group not found" check when no record
    exists for [r]; and once it has returned for [(r, a)], every later
    [joinGroup] for [r] sent by [a], with any commitment and after any trace
    of transactions, fails on the "Already joined" check and hands back the
    world untouched: the service, which holds the commitments, is neither
    called nor changed. *)
Theorem joinGroup_once r c env w :
  (exists_ (groups_at (contract w) r) = false ->
   joinGroup r c env w = (Revert (RequireFailed "Group not found"), w)) /\
  (forall u w1 tr c' env',
     joinGroup r c env w = (Ok u, w1) ->
     msg_sender env' = msg_sender env ->
     joinGroup r c' env' (run_trace keccak256 tr w1) =
       (Revert (RequireFailed "Already joined"), run_trace keccak256 tr w1)).
Proof.
  split.
  - intros He. rewrite joinGroup_eq; cbn. by rewrite He.
  - intros u w1 tr c' env' Hok Hs.
    apply joinGroup_ok_inv in Hok as (He & _ & s' & _ & Hw1).
    assert (He1 : exists_ (groups_at (contract w1) r) = true)
      by (subst w1; exact He).
    assert (Hj1 : hasJoined_at (contract w1) r (msg_sender env) = true).
    { subst w1; cbn. rewrite hasJoined_at_insert. by destruct (decide _). }
    apply (run_trace_exists tr) in He1. apply (run_trace_joined tr) in Hj1.
    rewrite joinGroup_eq; cbn. rewrite He1, Hs, Hj1. reflexivity.
Qed.

(** ** Failing calls write nothing *)

(** C4: when [joinGroup] or [validateSignal] fails, on one of its checks or
    because the call into the service reverts, the world at the point of
    failure has the storage (group table, join markers, nullifier marks,
    [nextGroupIndex]), the service state and the event log it started
    with; and the transaction leaves the world as it was. *)
Theorem failing_call_writes_nothing env w e w' :
  (forall r c,
     joinGroup r c env w = (Revert e, w') ->
     contract w' = contract w /\ semaphore w' = semaphore w /\ log w' = log w /\
     transact keccak256 (JoinGroup r c, env) w = w) /\
  (forall r p,
     validateSignal keccak256 r p env w = (Revert e, w') ->
     contract w' = contract w /\ semaphore w' = semaphore w /\ log w' = log w /\
     transact keccak256 (ValidateSignal r p, env) w = w).
Proof.
  split.
  - intros r c H. unfold transact; cbn [exec fst snd]. rewrite H.
    rewrite joinGroup_eq in H; cbn in H.
    destruct (exists_ (groups_at (contract w) r)); [|by injection H as _ <-].
    destruct (hasJoined_at (contract w) r (msg_sender env)); [by injection H as _ <-|].
    destruct (sem_addMember _ c (semaphore w)); [discriminate|].
    by injection H as _ <-.
  - intros r p H. unfold transact; cbn [exec fst snd]. rewrite H.
    rewrite validateSignal_eq in H; cbn in H.
    destruct (exists_ (groups_at (contract w) r)); [|by injection H as _ <-].
    destruct (nullifierUsed_at (contract w) r (nullifier p)); [by injection H as _ <-|].
    destruct (sem_validateProof _ p (semaphore w)); [discriminate|].
    by injection H as _ <-.
Qed.

(** ** Sequential registry ids *)

Lemma transact_create n d i c env w :
  transact keccak256 (CreateGroup n d i c, env) w =
  match createGroup n d i c env w with
  | (Ok _, w') => w'
  | (Revert _, _) => w
  end.
Proof.
  unfold transact; cbn [exec fst snd]. unfold bind, ret.
  by destruct (createGroup n d i c env w) as [[r|e] w'].
Qed.

Lemma createGroup_ok_inv n d i c env w r w1 :
  createGroup n d i c env w = (Ok r, w1) ->
  r = nextGroupIndex (contract w) /\
  nextGroupIndex (contract w1) = r + 1 /\
  hasJoined (contract w1) = hasJoined (contract w) /\
  nullifierUsed (contract w1) = nullifierUsed (contract w) /\
  exists g, exists_ g = true /\ groups (contract w1) = <[r := g]> (groups (contract w)).
Proof.
  rewrite createGroup_eq; cbn.
  destruct (sem_createGroup (semaphore w)) as [[gid s']|]; [|discriminate].
  destruct (decide _); [discriminate|].
  intros [= <- <-]; cbn. repeat split. eexists; split; [|reflexivity]. reflexivity.
Qed.

Lemma transact_other_next tx w :
  (forall n d i c, tx.1 <> CreateGroup n d i c) ->
  nextGroupIndex (contract (transact keccak256 tx w)) = nextGroupIndex (contract w).
Proof.
  intros Hne. destruct tx as [[n d i c | r c | r p] env]; cbn in Hne.
  - by destruct (Hne n d i c).
  - unfold transact; cbn [exec fst snd]. rewrite joinGroup_eq; cbn.
    destruct (exists_ _); [|reflexivity].
    destruct (hasJoined_at _ _ _); [reflexivity|].
    destruct (sem_addMember _ _ _); reflexivity.
  - unfold transact; cbn [exec fst snd]. rewrite validateSignal_eq; cbn.
    destruct (exists_ _); [|reflexivity].
    destruct (nullifierUsed_at _ _ _); [reflexivity|].
    destruct (sem_validateProof _ _ _); reflexivity.
Qed.

(** Along a trace the ids handed out count up from the current
    [nextGroupIndex], which ends that many steps further. *)
Lemma created_ids_from tr : forall w,
  created_ids keccak256 tr w =
    (fun k => nextGroupIndex (contract w) + N.of_nat k)
      <$> seq 0 (length (created_ids keccak256 tr w)) /\
  nextGroupIndex (contract (run_trace keccak256 tr w)) =
    nextGroupIndex (contract w) + N.of_nat (length (created_ids keccak256 tr w)).
Proof.
  induction tr as [|[call env] tr IH]; intros w.
  - cbn. split; [reflexivity | lia].
  - assert (Hother : (forall n d i c, call <> CreateGroup n d i c) ->
        created_ids keccak256 ((call, env) :: tr) w =
        created_ids keccak256 tr (transact keccak256 (call, env) w)).
    { intros Hne. destruct call as [n d i c | |];
        [by destruct (Hne n d i c) | reflexivity | reflexivity]. }
    destruct call as [n d i c | r c | r p].
    + cbn [run_trace foldl created_ids]. rewrite transact_create.
      destruct (createGroup n d i c env w) as [[r|e] w1] eqn:Hc.
      * apply createGroup_ok_inv in Hc as (-> & Hnext & _).
        destruct (IH w1) as [IH1 IH2]. fold (run_trace keccak256 tr w1).
        rewrite IH2, Hnext. cbn [length]. split; [|lia].
        cbn [seq fmap list_fmap]. f_equal; [lia|].
        rewrite <- fmap_S_seq, <- list_fmap_compose.
        rewrite IH1 at 1. rewrite Hnext. apply list_fmap_ext.
        intros _ k _. cbn. lia.
      * apply IH.
    + rewrite Hother by discriminate. cbn [run_trace foldl].
      fold (run_trace keccak256 tr (transact keccak256 (JoinGroup r c, env) w)).
      destruct (IH (transact keccak256 (JoinGroup r c, env) w)) as [IH1 IH2].
      rewrite transact_other_next in IH1, IH2 by discriminate. by split.
    + rewrite Hother by discriminate. cbn [run_trace foldl].
      fold (run_trace keccak256 tr (transact keccak256 (ValidateSignal r p, env) w)).
      destruct (IH (transact keccak256 (ValidateSignal r p, env) w)) as [IH1 IH2].
      rewrite transact_other_next in IH1, IH2 by discriminate. by split.
Qed.

(** Reachable worlds are the ends of traces from a deployment. *)
Lemma reachable_trace w :
  reachable keccak256 w <-> exists s0 tr, w = run_trace keccak256 tr (initWorld s0).
Proof.
  split.
  - induction 1 as [s0 | tx w _ (s0 & tr & ->)].
    + by exists s0, [].
    + exists s0, (tr ++ [tx]). unfold run_trace. by rewrite foldl_app.
  - intros (s0 & tr & ->). apply run_trace_reachable, reach_init.
Qed.

Lemma wf_exists_iff st r :
  wf st -> exists_ (groups_at st r) = true <-> r < nextGroupIndex st.
Proof.
  intros Hwf. split; [|apply (wf_below _ Hwf)].
  intros He. destruct (N.lt_ge_cases r (nextGroupIndex st)) as [|Hge]; [done|].
  apply (wf_above _ Hwf) in Hge. unfold groups_at in He. by rewrite Hge in He.
Qed.

Lemma created_ids_app tr tr' : forall w,
  created_ids keccak256 (tr ++ tr') w =
  created_ids keccak256 tr w ++ created_ids keccak256 tr' (run_trace keccak256 tr w).
Proof.
  induction tr as [|[call env] tr IH]; intros w; [reflexivity|].
  cbn [app run_trace foldl].
  fold (run_trace keccak256 tr (transact keccak256 (call, env) w)).
  destruct call as [n d i c | r c | r p].
  - cbn [created_ids]. rewrite transact_create.
    destruct (createGroup n d i c env w) as [[r|e] w1]; [|apply IH].
    by rewrite IH.
  - cbn [created_ids]. apply IH.
  - cbn [created_ids]. apply IH.
Qed.

(** C2: along every trace of transactions from the freshly deployed
    contract, the registry ids returned by the [createGroup] calls are
    0, 1, 2, ... in call order, the counter [nextGroupIndex] ends at their
    number, and in the state reached a record with [exists = true] is
    stored for [r] exactly when [r < nextGroupIndex]. A further
    [createGroup] is handed the next id, the number of ids handed out so
    far, whenever the service creates its group (and the counter is not at
    [2^256 - 1]); it is handed none, and the list of ids stays as it is,
    when the service reverts. *)
Theorem registry_ids_sequential tr s0 r n d i c env :
  created_ids keccak256 tr (initWorld s0) =
    N.of_nat <$> seq 0 (length (created_ids keccak256 tr (initWorld s0))) /\
  nextGroupIndex (contract (run_trace keccak256 tr (initWorld s0))) =
    N.of_nat (length (created_ids keccak256 tr (initWorld s0))) /\
  (exists_ (groups_at (contract (run_trace keccak256 tr (initWorld s0))) r) = true <->
   r < nextGroupIndex (contract (run_trace keccak256 tr (initWorld s0)))) /\
  (nextGroupIndex (contract (run_trace keccak256 tr (initWorld s0))) <> MAX_UINT256 ->
   forall gid s',
     sem_createGroup (semaphore (run_trace keccak256 tr (initWorld s0))) = Some (gid, s') ->
     exists w1,
       createGroup n d i c env (run_trace keccak256 tr (initWorld s0)) =
         (Ok (N.of_nat (length (created_ids keccak256 tr (initWorld s0)))), w1) /\
       created_ids keccak256 (tr ++ [(CreateGroup n d i c, env)]) (initWorld s0) =
         created_ids keccak256 tr (initWorld s0) ++
           [N.of_nat (length (created_ids keccak256 tr (initWorld s0)))]) /\
  (sem_createGroup (semaphore (run_trace keccak256 tr (initWorld s0))) = None ->
   created_ids keccak256 (tr ++ [(CreateGroup n d i c, env)]) (initWorld s0) =
     created_ids keccak256 tr (initWorld s0)).
Proof.
  destruct (created_ids_from tr (initWorld s0)) as [H1 H2].
  assert (Hnext : nextGroupIndex (contract (run_trace keccak256 tr (initWorld s0))) =
                  N.of_nat (length (created_ids keccak256 tr (initWorld s0))))
    by (rewrite H2; cbn; lia).
  split; [|split; [|split; [|split]]].
  - rewrite H1 at 1. apply list_fmap_ext. intros _ k _. cbn. lia.
  - exact Hnext.
  - apply wf_exists_iff, reachable_wf, run_trace_reachable, reach_init.
  - intros Hmax gid s' Hs. rewrite created_ids_app. cbn [created_ids].
    rewrite createGroup_eq; cbn zeta. rewrite Hs.
    destruct (decide _) as [E|_]; [by destruct Hmax|].
    rewrite Hnext. eexists. split; reflexivity.
  - intros Hs. rewrite created_ids_app. cbn [created_ids].
    rewrite createGroup_eq; cbn zeta. rewrite Hs. by rewrite app_nil_r.
Qed.

(** ** Reads *)

(** C6: in a reachable state, [getGroupInfo] on a registry id at or above
    [nextGroupIndex] returns, without failing and without touching the
    world, the zero record, whose [exists] field is [false]. *)
Theorem getGroupInfo_unknown_id r w :
  reachable keccak256 w ->
  nextGroupIndex (contract w) <= r ->
  getGroupInfo r w = (Ok zeroGroupInfo, w) /\ exists_ zeroGroupInfo = false.
Proof.
  intros Hr Hge. split; [|reflexivity].
  apply reachable_wf in Hr. apply (wf_above _ Hr) in Hge.
  unfold getGroupInfo, bind, get, ret, groups_at. by rewrite Hge.
Qed.

(** ** The emitted signal *)

Lemma last_snoc_event (l : list Event) e : last (l ++ [e]) = Some e.
Proof. apply last_snoc. Qed.

(** C8 as the code has it: [validateSignal] has no return value; a run
    that returns appends exactly one event to the log, the [SignalSent]
    carrying the registry id, the group id of the service, the two field
    hashes, the nullifier and the 64-bit timestamp. *)
Theorem validateSignal_emits_one_signal r p env w u w1 :
  validateSignal keccak256 r p env w = (Ok u, w1) ->
  u = tt /\
  log w1 = log w ++
    [SignalSent r (groupId (groups_at (contract w) r))
       (fieldHash keccak256 (message p)) (fieldHash keccak256 (scope p))
       (nullifier p) (uint64 (block_timestamp env))] /\
  emitted_signal w1 =
    Some {| sig_registryId := r;
            sig_externalGroupId := groupId (groups_at (contract w) r);
            sig_signalHash := fieldHash keccak256 (message p);
            sig_scopeHash := fieldHash keccak256 (scope p);
            sig_nullifier := nullifier p;
            sig_timestamp := uint64 (block_timestamp env) |}.
Proof.
  intros Hok. apply validateSignal_ok_inv in Hok as (_ & _ & s' & _ & ->).
  split; [by destruct u|]. split; [reflexivity|].
  unfold emitted_signal; cbn [log]. by rewrite last_snoc_event.
Qed.

Lemma validateSignal_signal r p env w u w1 :
  validateSignal keccak256 r p env w = (Ok u, w1) ->
  exists s,
    emitted_signal w1 = Some s /\
    sig_signalHash s = fieldHash keccak256 (message p) /\
    sig_scopeHash s = fieldHash keccak256 (scope p).
Proof.
  intros Hok. apply validateSignal_ok_inv in Hok as (_ & _ & s' & _ & ->).
  exists (mkSignal r (groupId (groups_at (contract w) r))
            (fieldHash keccak256 (message p)) (fieldHash keccak256 (scope p))
            (nullifier p) (uint64 (block_timestamp env))).
  split; [|split; reflexivity].
  unfold emitted_signal; cbn [log]. by rewrite last_snoc_event.
Qed.

(** C5: the [signalHash] and [scopeHash] of the signal emitted by a
    [validateSignal] that returns are the 256-bit digest of the message
    bytes, respectively the scope bytes, shifted right by 8 bits; so two
    such calls, in any two worlds and for any two registry ids, whose
    proofs carry the same message bytes emit the same [signalHash], and
    likewise for scope bytes and [scopeHash]. *)
Theorem signal_hashes_deterministic r1 p1 env1 w1 u1 w1' r2 p2 env2 w2 u2 w2' :
  validateSignal keccak256 r1 p1 env1 w1 = (Ok u1, w1') ->
  validateSignal keccak256 r2 p2 env2 w2 = (Ok u2, w2') ->
  exists s1 s2,
    emitted_signal w1' = Some s1 /\ emitted_signal w2' = Some s2 /\
    sig_signalHash s1 = N.shiftr (uint256 (keccak256 (message p1))) 8 /\
    sig_scopeHash s1 = N.shiftr (uint256 (keccak256 (scope p1))) 8 /\
    (message p1 = message p2 -> sig_signalHash s1 = sig_signalHash s2) /\
    (scope p1 = scope p2 -> sig_scopeHash s1 = sig_scopeHash s2).
Proof.
  intros H1 H2.
  apply validateSignal_signal in H1 as (s1 & E1 & Hm1 & Hs1).
  apply validateSignal_signal in H2 as (s2 & E2 & Hm2 & Hs2).
  exists s1, s2. repeat split; try assumption.
  - intros Heq. by rewrite Hm1, Hm2, Heq.
  - intros Heq. by rewrite Hs1, Hs2, Heq.
Qed.

Lemma fieldHash_bound b : fieldHash keccak256 b < 2 ^ 248.
Proof.
  unfold fieldHash, uint256. rewrite N.shiftr_div_pow2.
  apply N.Div0.div_lt_upper_bound.
  change (2 ^ 8 * 2 ^ 248) with (2 ^ 256).
  by apply N.mod_lt.
Qed.

Lemma fieldHash_high_bits b i : 248 <= i -> N.testbit (fieldHash keccak256 b) i = false.
Proof.
  intros Hi. unfold fieldHash, uint256. rewrite N.shiftr_spec by lia.
  apply N.mod_pow2_bits_high. lia.
Qed.

(** C10: the [signalHash] and [scopeHash] of the signal emitted by a
    [validateSignal] that returns are the 256-bit digests shifted right by
    8 bits; both are below [2^248] and have no bit set from position 248
    up. *)
Theorem signal_hashes_below_2_248 r p env w u w1 :
  validateSignal keccak256 r p env w = (Ok u, w1) ->
  exists s,
    emitted_signal w1 = Some s /\
    sig_signalHash s = N.shiftr (uint256 (keccak256 (message p))) 8 /\
    sig_scopeHash s = N.shiftr (uint256 (keccak256 (scope p))) 8 /\
    sig_signalHash s < 2 ^ 248 /\ sig_scopeHash s < 2 ^ 248 /\
    (forall i, 248 <= i ->
       N.testbit (sig_signalHash s) i = false /\ N.testbit (sig_scopeHash s) i = false).
Proof.
  intros Hok. apply validateSignal_signal in Hok as (s & E & Hm & Hs).
  exists s. rewrite Hm, Hs. repeat split; try assumption; try reflexivity.
  - apply fieldHash_bound.
  - apply fieldHash_bound.
  - by apply fieldHash_high_bits.
  - by apply fieldHash_high_bits.
Qed.

(** ** Independence of groups *)

(** A transaction that works on one registry id leaves the record, the
    join markers and the nullifier marks of every other id as they were. *)
Lemma transact_frame tx w r2 :
  call_target tx.1 (contract w) <> r2 ->
  groups_at (contract (transact keccak256 tx w)) r2 = groups_at (contract w) r2 /\
  (forall a, hasJoined_at (contract (transact keccak256 tx w)) r2 a =
             hasJoined_at (contract w) r2 a) /\
  (forall n, nullifierUsed_at (contract (transact keccak256 tx w)) r2 n =
             nullifierUsed_at (contract w) r2 n).
Proof.
  destruct tx as [[n d i c | r c | r p] env]; cbn [call_target fst]; intros Hne.
  - rewrite transact_create, createGroup_eq; cbn.
    destruct (sem_createGroup (semaphore w)) as [[gid s']|]; [|done].
    destruct (decide _); [done|]. cbn. split; [|done].
    rewrite groups_at_insert. by destruct (decide _).
  - unfold transact; cbn [exec fst snd]. rewrite joinGroup_eq; cbn.
    destruct (exists_ _); [|done]. destruct (hasJoined_at _ _ _); [done|].
    destruct (sem_addMember _ _ _); [|done]. cbn. split; [done|]. split; [|done].
    intros a. rewrite hasJoined_at_insert. destruct (decide _) as [[= ? ?]|]; done.
  - unfold transact; cbn [exec fst snd]. rewrite validateSignal_eq; cbn.
    destruct (exists_ _); [|done]. destruct (nullifierUsed_at _ _ _); [done|].
    destruct (sem_validateProof _ _ _); [|done]. cbn. split; [done|]. split; [done|].
    intros n. rewrite nullifierUsed_at_insert. destruct (decide _) as [[= ? ?]|]; done.
Qed.

(** C7: nullifier marks are kept per registry id. A [validateSignal] that
    returns for [r1] leaves the nullifier marks, the join markers and the
    record of every other id [r2] as they were; a later [validateSignal] for
    [r2] carrying the same nullifier returns whenever [r2] has a record, the
    nullifier is not yet marked for [r2] and the service accepts the proof;
    and no transaction that works on another id changes what is stored for
    [r2]. *)
Theorem nullifier_scoped_per_group r1 r2 p1 env1 w u w1 :
  r1 <> r2 ->
  validateSignal keccak256 r1 p1 env1 w = (Ok u, w1) ->
  (forall n, nullifierUsed_at (contract w1) r2 n = nullifierUsed_at (contract w) r2 n) /\
  (forall a, hasJoined_at (contract w1) r2 a = hasJoined_at (contract w) r2 a) /\
  groups_at (contract w1) r2 = groups_at (contract w) r2 /\
  (forall p2 env2 s2,
     nullifier p2 = nullifier p1 ->
     exists_ (groups_at (contract w) r2) = true ->
     nullifierUsed_at (contract w) r2 (nullifier p1) = false ->
     sem_validateProof (groupId (groups_at (contract w) r2)) p2 (semaphore w1) = Some s2 ->
     exists w2,
       validateSignal keccak256 r2 p2 env2 w1 = (Ok tt, w2) /\
       nullifierUsed_at (contract w2) r2 (nullifier p1) = true /\
       nullifierUsed_at (contract w2) r1 (nullifier p1) = true) /\
  (forall tx w0,
     call_target tx.1 (contract w0) <> r2 ->
     groups_at (contract (transact keccak256 tx w0)) r2 = groups_at (contract w0) r2 /\
     (forall a, hasJoined_at (contract (transact keccak256 tx w0)) r2 a =
                hasJoined_at (contract w0) r2 a) /\
     (forall n, nullifierUsed_at (contract (transact keccak256 tx w0)) r2 n =
                nullifierUsed_at (contract w0) r2 n)).
Proof.
  intros Hne Hok.
  assert (Hw1 : w1 = transact keccak256 (ValidateSignal r1 p1, env1) w).
  { unfold transact; cbn [exec fst snd]. by rewrite Hok. }
  destruct (transact_frame (ValidateSignal r1 p1, env1) w r2 Hne) as (Hg & Hj & Hn).
  rewrite <- Hw1 in Hg, Hj, Hn.
  split; [exact Hn|]. split; [exact Hj|]. split; [exact Hg|].
  split; [|intros tx w0; apply transact_frame].
  intros p2 env2 s2 Hp He2 Hu2 Hv.
  rewrite validateSignal_eq; cbn. rewrite Hg, He2, Hp, Hn, Hu2, Hv.
  eexists; split; [reflexivity|]. cbn.
  rewrite !nullifierUsed_at_insert.
  split; [by destruct (decide _)|].
  destruct (decide _); [done|].
  apply validateSignal_ok_inv in Hok as (_ & _ & s' & _ & ->). cbn.
  rewrite nullifierUsed_at_insert. by destruct (decide _).
Qed.

(** ** Creating is not joining *)

Lemma transact_joined tx w r a :
  hasJoined_at (contract (transact keccak256 tx w)) r a =
  hasJoined_at (contract w) r a || (is_join r a tx && is_ok (exec keccak256 tx.1 tx.2 w)).
Proof.
  destruct tx as [[n d i c | r' c | r' p] env]; cbn [is_join andb].
  - rewrite orb_false_r. rewrite transact_create, createGroup_eq; cbn.
    destruct (sem_createGroup (semaphore w)) as [[gid s']|]; [|done].
    by destruct (decide _).
  - unfold transact; cbn [exec fst snd]. rewrite joinGroup_eq; cbn.
    destruct (exists_ _); [|by rewrite andb_false_r, orb_false_r].
    destruct (hasJoined_at _ r' _) eqn:Hj; [by rewrite andb_false_r, orb_false_r|].
    destruct (sem_addMember _ _ _); [|by rewrite andb_false_r, orb_false_r].
    cbn. rewrite andb_true_r, hasJoined_at_insert.
    destruct (decide _) as [[= -> <-]|Hne].
    + rewrite !bool_decide_eq_true_2 by done. by rewrite orb_true_r.
    + destruct (bool_decide_reflect (r' = r)) as [Hr|]; [|by rewrite orb_false_r].
      destruct (bool_decide_reflect (msg_sender env = a)) as [Ha|]; [|by rewrite orb_false_r].
      destruct Hne. by rewrite Hr, Ha.
  - rewrite orb_false_r. unfold transact; cbn [exec fst snd].
    rewrite validateSignal_eq; cbn.
    destruct (exists_ _); [|done]. destruct (nullifierUsed_at _ _ _); [done|].
    by destruct (sem_validateProof _ _ _).
Qed.

Lemma run_trace_joined_along tr : forall w r a,
  hasJoined_at (contract (run_trace keccak256 tr w)) r a =
  hasJoined_at (contract w) r a || joined_along keccak256 r a tr w.
Proof.
  induction tr as [|tx tr IH]; intros w r a.
  - cbn. by rewrite orb_false_r.
  - cbn [run_trace foldl joined_along].
    fold (run_trace keccak256 tr (transact keccak256 tx w)).
    rewrite IH, transact_joined. by rewrite orb_assoc.
Qed.

(** C9: in a reachable state, when [createGroup] sent by [a] returns
    registry id [r], [isMember(r, a)] is [false]; and after any trace of
    further transactions it is [true] exactly when the trace holds a
    [joinGroup] for [r] sent by [a] that returned. *)
Theorem creator_not_member n d i c env w r w1 :
  reachable keccak256 w ->
  createGroup n d i c env w = (Ok r, w1) ->
  isMember r (msg_sender env) w1 = (Ok false, w1) /\
  (forall tr,
     isMember r (msg_sender env) (run_trace keccak256 tr w1) =
       (Ok (joined_along keccak256 r (msg_sender env) tr w1),
        run_trace keccak256 tr w1)).
Proof.
  intros Hr Hc. apply reachable_wf in Hr.
  apply createGroup_ok_inv in Hc as (-> & _ & Hj & _).
  assert (H0 : hasJoined_at (contract w1) (nextGroupIndex (contract w)) (msg_sender env)
               = false).
  { unfold hasJoined_at. rewrite Hj.
    destruct (default false _) eqn:E; [|done].
    apply (wf_joined _ Hr) in E. lia. }
  split.
  - unfold isMember, bind, get, ret. by rewrite H0.
  - intros tr. unfold isMember, bind, get, ret.
    by rewrite run_trace_joined_along, H0.
Qed.

End Properties.

(** * The properties on the test double *)

Import FakeSemaphore.

(** Instance of C1: after [proofA] went through for group 0, [proofB]
    (same nullifier, message and scope swapped) is refused once [more] has
    run. *)
Lemma validateSignal_nullifier_once_witness :
  nullifierUsed_at (contract (run_trace digest more w3)) 0 5 = true /\
  validateSignal digest 0 proofB envBobLater (run_trace digest more w3) =
    (Revert (RequireFailed "Nullifier already used"), run_trace digest more w3).
Proof.
  apply (validateSignal_nullifier_once digest 0 proofA envBob w2 tt w3 more
           proofB envBobLater).
  - vm_compute. reflexivity.
  - reflexivity.
Defined.

(** Instance of C2: after two groups and a join the third [createGroup]
    is handed id 2. *)
Lemma registry_ids_sequential_witness :
  exists w1,
    createGroup "third" "" "" "" envBob
      (run_trace digest
         [(CreateGroup "zk-Builders" "" "" "DAO", mkEnv alice 1000);
          (CreateGroup "voters" "" "" "Vote", mkEnv alice 1001);
          (JoinGroup 0 77, envBob)] (initWorld s0)) =
      (Ok (N.of_nat (length (created_ids digest
         [(CreateGroup "zk-Builders" "" "" "DAO", mkEnv alice 1000);
          (CreateGroup "voters" "" "" "Vote", mkEnv alice 1001);
          (JoinGroup 0 77, envBob)] (initWorld s0)))), w1) /\
    created_ids digest
      ([(CreateGroup "zk-Builders" "" "" "DAO", mkEnv alice 1000);
        (CreateGroup "voters" "" "" "Vote", mkEnv alice 1001);
        (JoinGroup 0 77, envBob)] ++ [(CreateGroup "third" "" "" "", envBob)])
      (initWorld s0) =
    created_ids digest
      [(CreateGroup "zk-Builders" "" "" "DAO", mkEnv alice 1000);
       (CreateGroup "voters" "" "" "Vote", mkEnv alice 1001);
       (JoinGroup 0 77, envBob)] (initWorld s0) ++
      [N.of_nat (length (created_ids digest
         [(CreateGroup "zk-Builders" "" "" "DAO", mkEnv alice 1000);
          (CreateGroup "voters" "" "" "Vote", mkEnv alice 1001);
          (JoinGroup 0 77, envBob)] (initWorld s0)))].
Proof.
  destruct (registry_ids_sequential digest
              [(CreateGroup "zk-Builders" "" "" "DAO", mkEnv alice 1000);
               (CreateGroup "voters" "" "" "Vote", mkEnv alice 1001);
               (JoinGroup 0 77, envBob)] s0 0 "third" "" "" "" envBob)
    as (_ & _ & _ & Hnext & _).
  apply (Hnext ltac:(vm_compute; discriminate) 102 (mkState 103 [(100, 77)])).
  vm_compute. reflexivity.
Defined.

(** Instance of C3: group 7 does not exist; [bob] joins group 0 once and
    is refused the second time, with another commitment. *)
Lemma joinGroup_once_witness :
  joinGroup 7 77 envBob w2 = (Revert (RequireFailed "Group not found"), w2) /\
  joinGroup 0 99 envBobLater (run_trace digest more w2j) =
    (Revert (RequireFailed "Already joined"), run_trace digest more w2j).
Proof.
  split.
  - apply (proj1 (joinGroup_once digest 7 77 envBob w2)). reflexivity.
  - apply (proj2 (joinGroup_once digest 0 77 envBob w2) tt w2j more 99 envBobLater).
    + vm_compute. reflexivity.
    + reflexivity.
Defined.

(** Instance of C4: the double rejects commitment 0 and [proofBad]. *)
Lemma failing_call_writes_nothing_witness :
  (contract (joinGroup 0 0 envBob w2).2 = contract w2 /\
   semaphore (joinGroup 0 0 envBob w2).2 = semaphore w2 /\
   log (joinGroup 0 0 envBob w2).2 = log w2 /\
   transact digest (JoinGroup 0 0, envBob) w2 = w2) /\
  (contract (validateSignal digest 0 proofBad envBob w2).2 = contract w2 /\
   semaphore (validateSignal digest 0 proofBad envBob w2).2 = semaphore w2 /\
   log (validateSignal digest 0 proofBad envBob w2).2 = log w2 /\
   transact digest (ValidateSignal 0 proofBad, envBob) w2 = w2).
Proof.
  split.
  - apply (proj1 (failing_call_writes_nothing digest envBob w2
                    (UpstreamReverted (CallAddMember 100 0))
                    (joinGroup 0 0 envBob w2).2) 0 0).
    vm_compute. reflexivity.
  - apply (proj2 (failing_call_writes_nothing digest envBob w2
                    (UpstreamReverted (CallValidateProof 100 proofBad))
                    (validateSignal digest 0 proofBad envBob w2).2) 0 proofBad).
    vm_compute. reflexivity.
Defined.

(** Instance of C6: two groups exist, id 2 is unknown. *)
Lemma getGroupInfo_unknown_id_witness :
  getGroupInfo 2 w2 = (Ok zeroGroupInfo, w2) /\ exists_ zeroGroupInfo = false.
Proof.
  apply (getGroupInfo_unknown_id digest 2 w2).
  - apply run_trace_reachable, reach_init.
  - vm_compute. discriminate.
Defined.

(** Instance of C5: [proofA] for group 0 and [proofC] for group 1 carry the
    same message and scope. *)
Lemma signal_hashes_deterministic_witness :
  exists s1 s2,
    emitted_signal w3 = Some s1 /\
    emitted_signal (validateSignal digest 1 proofC envBobLater w3).2 = Some s2 /\
    sig_signalHash s1 = N.shiftr (uint256 (digest (message proofA))) 8 /\
    sig_scopeHash s1 = N.shiftr (uint256 (digest (scope proofA))) 8 /\
    (message proofA = message proofC -> sig_signalHash s1 = sig_signalHash s2) /\
    (scope proofA = scope proofC -> sig_scopeHash s1 = sig_scopeHash s2).
Proof.
  apply (signal_hashes_deterministic digest 0 proofA envBob w2 tt w3
           1 proofC envBobLater w3 tt
           (validateSignal digest 1 proofC envBobLater w3).2).
  - vm_compute. reflexivity.
  - vm_compute. reflexivity.
Defined.

(** Instance of C7: nullifier 5, used for group 0, goes through for
    group 1. *)
Lemma nullifier_scoped_per_group_witness :
  nullifierUsed_at (contract w3) 0 5 = true /\
  nullifierUsed_at (contract w3) 1 5 = false /\
  exists w4,
    validateSignal digest 1 proofC envBobLater w3 = (Ok tt, w4) /\
    nullifierUsed_at (contract w4) 1 5 = true /\
    nullifierUsed_at (contract w4) 0 5 = true.
Proof.
  split; [vm_compute; reflexivity|].
  assert (Hne : (0 : N) <> 1) by discriminate.
  assert (Hok : validateSignal digest 0 proofA envBob w2 = (Ok tt, w3))
    by (vm_compute; reflexivity).
  destruct (nullifier_scoped_per_group digest 0 1 proofA envBob w2 tt w3 Hne Hok)
    as (Hn & _ & _ & Hnext & _).
  split.
  - rewrite Hn. vm_compute. reflexivity.
  - apply (Hnext proofC envBobLater (semaphore w3)); vm_compute; reflexivity.
Defined.

(** Instance of the amended C8: the one event of [bob]'s submission. *)
Lemma validateSignal_emits_one_signal_witness :
  tt = tt /\
  log w3 = log w2 ++
    [SignalSent 0 (groupId (groups_at (contract w2) 0))
       (fieldHash digest (message proofA)) (fieldHash digest (scope proofA))
       (nullifier proofA) (uint64 (block_timestamp envBob))] /\
  emitted_signal w3 =
    Some {| sig_registryId := 0;
            sig_externalGroupId := groupId (groups_at (contract w2) 0);
            sig_signalHash := fieldHash digest (message proofA);
            sig_scopeHash := fieldHash digest (scope proofA);
            sig_nullifier := nullifier proofA;
            sig_timestamp := uint64 (block_timestamp envBob) |}.
Proof.
  apply (validateSignal_emits_one_signal digest 0 proofA envBob w2 tt w3).
  vm_compute. reflexivity.
Defined.

(** C8 as stated fails: the value [validateSignal] hands back to its
    caller does not carry the signal. On the test double, [proofA] for
    group 0 and [proofC] for group 1 both go through and emit different
    signals, yet the caller receives the same value both times; no reading
    of the returned value yields the emitted signal in both cases. *)
Lemma validateSignal_returns_no_signal :
  ~ exists f : unit -> Signal,
      forall r p env (w : World state) u w1,
        validateSignal digest r p env w = (Ok u, w1) ->
        emitted_signal w1 = Some (f u).
Proof.
  intros [f Hf].
  assert (HA : validateSignal digest 0 proofA envBob w2 = (Ok tt, w3))
    by (vm_compute; reflexivity).
  assert (HC : validateSignal digest 1 proofC envBobLater w3 =
               (Ok tt, (validateSignal digest 1 proofC envBobLater w3).2))
    by (vm_compute; reflexivity).
  apply Hf in HA. apply Hf in HC. rewrite <- HC in HA.
  vm_compute in HA. discriminate HA.
Qed.

(** Instance of C9: [alice] creates group 2 and is not a member of it;
    along [joining] her first attempt is rejected by the double, her second
    goes through. *)
Lemma creator_not_member_witness :
  isMember 2 alice w2c = (Ok false, w2c) /\
  (forall tr,
     isMember 2 alice (run_trace digest tr w2c) =
       (Ok (joined_along digest 2 alice tr w2c), run_trace digest tr w2c)).
Proof.
  apply (creator_not_member digest "third" "" "" "" (mkEnv alice 2100) w2 2 w2c).
  - apply run_trace_reachable, reach_init.
  - vm_compute. reflexivity.
Defined.

(** Instance of C10 on [bob]'s submission. *)
Lemma signal_hashes_below_2_248_witness :
  exists s,
    emitted_signal w3 = Some s /\
    sig_signalHash s = N.shiftr (uint256 (digest (message proofA))) 8 /\
    sig_scopeHash s = N.shiftr (uint256 (digest (scope proofA))) 8 /\
    sig_signalHash s < 2 ^ 248 /\ sig_scopeHash s < 2 ^ 248 /\
    (forall i, 248 <= i ->
       N.testbit (sig_signalHash s) i = false /\ N.testbit (sig_scopeHash s) i = false).
Proof.
  apply (signal_hashes_below_2_248 digest 0 proofA envBob w2 tt w3).
  vm_compute. reflexivity.
Defined.

(** The scenario of the spec's section 8 on the test double. *)
(** The ids of three groups created around a join. *)
Example three_groups_ids :
  created_ids digest
    [(CreateGroup "zk-Builders" "" "" "DAO", mkEnv alice 1000);
     (CreateGroup "voters" "" "" "Vote", mkEnv alice 1001);
     (JoinGroup 0 77, envBob);
     (CreateGroup "third" "" "" "", envBob)] (initWorld s0) = [0; 1; 2].
Proof. vm_compute. reflexivity. Qed.

Example scenario_join_then_signal :
  (created_ids digest
     [(CreateGroup "zk-Builders" "" "" "DAO", mkEnv alice 1000)] (initWorld s0) = [0]) /\
  (isMember 0 bob w2j).1 = Ok true /\
  (joinGroup 0 99 envBobLater w2j).1 = Revert (RequireFailed "Already joined") /\
  (validateSignal digest 0 proofA envBob w2j).1 = Ok tt /\
  (validateSignal digest 0 proofA envBobLater w3).1 =
    Revert (RequireFailed "Nullifier already used") /\
  (validateSignal digest 0 (mkProof 6 hello daily [100]) envBobLater w3).1 = Ok tt /\
  joined_along digest 2 alice joining w2c = true /\
  (isMember 2 bob w2c).1 = Ok false.
Proof. vm_compute. repeat split; reflexivity. Qed.

(** * Further properties of the contract *)

Section MoreProperties.
Context {S : Type} `{Sem : ISemaphore S}.
Variable keccak256 : list Byte.byte -> N.

Implicit Types (w : World S) (st : WhispState) (env : Env) (p : SemaphoreProof).

Lemma transact_world_step tx w : world_step keccak256 w (transact keccak256 tx w).
Proof.
  destruct tx as [[n d i c | r c | r p] env].
  - rewrite transact_create, createGroup_eq; cbn.
    destruct (sem_createGroup (semaphore w)) as [[gid s']|] eqn:Hs; [|constructor].
    destruct (decide _); [constructor | by apply wstep_create].
  - unfold transact; cbn [exec fst snd]. rewrite joinGroup_eq; cbn.
    destruct (exists_ _) eqn:He; [|constructor].
    destruct (hasJoined_at _ _ _) eqn:Hj; [constructor|].
    destruct (sem_addMember _ _ _) eqn:Hs; [by apply wstep_join | constructor].
  - unfold transact; cbn [exec fst snd]. rewrite validateSignal_eq; cbn.
    destruct (exists_ _) eqn:He; [|constructor].
    destruct (nullifierUsed_at _ _ _) eqn:Hn; [constructor|].
    destruct (sem_validateProof _ _ _) eqn:Hs; [by apply wstep_signal | constructor].
Qed.

(** Induction over reachable worlds, one case per shape of step. *)
Lemma reachable_step_ind (P : World S -> Prop) :
  (forall s0, P (initWorld s0)) ->
  (forall w w', reachable keccak256 w -> P w -> world_step keccak256 w w' -> P w') ->
  forall w, reachable keccak256 w -> P w.
Proof.
  intros Hi Hs w Hr. induction Hr as [s0 | tx w Hr IH]; [apply Hi|].
  eapply Hs; [exact Hr | exact IH | apply transact_world_step].
Qed.

(** ** Creating a group *)

(** X1: a [createGroup] that returns hands out the old [nextGroupIndex],
    advances it by one, calls the service once, stores under the new id the
    record made of the service's group id, the sender, the 64-bit
    timestamp and the four strings verbatim (read back by [getGroupInfo]),
    and appends the one [GroupCreated] event with the same fields. *)
Theorem createGroup_round_trip n d i c env w r w1 :
  createGroup n d i c env w = (Ok r, w1) ->
  exists gid s',
    sem_createGroup (semaphore w) = Some (gid, s') /\
    r = nextGroupIndex (contract w) /\
    nextGroupIndex (contract w1) = r + 1 /\
    getGroupInfo r w1 =
      (Ok (mkGroupInfo gid (msg_sender env) (uint64 (block_timestamp env))
             true n d i c), w1) /\
    log w1 = log w ++ [GroupCreated r gid (msg_sender env) n d i c
                         (uint64 (block_timestamp env))] /\
    semaphore w1 = s' /\
    extcalls w1 = extcalls w ++ [CallCreateGroup].
Proof.
  rewrite createGroup_eq; cbn.
  destruct (sem_createGroup (semaphore w)) as [[gid s']|]; [|discriminate].
  destruct (decide _); [discriminate|].
  intros [= <- <-]. exists gid, s'. repeat split.
  unfold getGroupInfo, bind, get, ret; cbn [contract].
  rewrite groups_at_insert. by destruct (decide _).
Qed.

(** X2: [createGroup] fails in two ways only: the service reverts, or the
    counter stands at [2^256 - 1] and the checked increment panics (code
    0x11). Either way the storage and the event log are as before and the
    transaction leaves the world as it was. *)
Theorem createGroup_failure_modes n d i c env w e w' :
  createGroup n d i c env w = (Revert e, w') ->
  ((e = UpstreamReverted CallCreateGroup /\ sem_createGroup (semaphore w) = None) \/
   (e = Panic 17 /\ nextGroupIndex (contract w) = MAX_UINT256)) /\
  contract w' = contract w /\ log w' = log w /\
  transact keccak256 (CreateGroup n d i c, env) w = w.
Proof.
  intros H. rewrite transact_create, H.
  rewrite createGroup_eq in H; cbn in H.
  destruct (sem_createGroup (semaphore w)) as [[gid s']|].
  - destruct (decide _) as [Hmax|]; [|discriminate].
    injection H as <- <-. repeat split; auto.
  - injection H as <- <-. repeat split; auto.
Qed.

(** ** Joining *)

(** X3: a [joinGroup] that returns makes the sender a member of that
    group and of no other, changes no one else's marker, leaves the group
    table, the counter and the nullifier marks alone, passes the
    commitment to the service once under the group's stored id, and
    appends the one [MemberJoined] event. *)
Theorem joinGroup_effect r c env w u w1 :
  joinGroup r c env w = (Ok u, w1) ->
  isMember r (msg_sender env) w1 = (Ok true, w1) /\
  (forall r' a', (r', a') <> (r, msg_sender env) ->
     hasJoined_at (contract w1) r' a' = hasJoined_at (contract w) r' a') /\
  groups (contract w1) = groups (contract w) /\
  nextGroupIndex (contract w1) = nextGroupIndex (contract w) /\
  nullifierUsed (contract w1) = nullifierUsed (contract w) /\
  extcalls w1 = extcalls w ++ [CallAddMember (groupId (groups_at (contract w) r)) c] /\
  log w1 = log w ++ [MemberJoined r (groupId (groups_at (contract w) r))
                       (msg_sender env) c (uint64 (block_timestamp env))].
Proof.
  intros H. apply joinGroup_ok_inv in H as (_ & _ & s' & _ & ->).
  repeat split.
  - unfold isMember, bind, get, ret; cbn [contract].
    rewrite hasJoined_at_insert. by destruct (decide _).
  - intros r' a' Hne. cbn [contract]. rewrite hasJoined_at_insert.
    destruct (decide _) as [E|]; [|done]. by destruct Hne.
Qed.

(** ** Signals leave no trace of their sender *)

Lemma validateSignal_any_sender r p sender1 sender2 timestamp w :
  validateSignal keccak256 r p (mkEnv sender1 timestamp) w =
  validateSignal keccak256 r p (mkEnv sender2 timestamp) w.
Proof. by rewrite !validateSignal_eq. Qed.

(** X20: the world keeps no trace of who sent a signal: after any trace
    of transactions the storage, the service state, the event log and the
    calls made are what they would be had every [validateSignal] of the
    trace been sent by one and the same account [who], member or not. *)
Theorem signals_leave_no_sender tr who : forall w,
  run_trace keccak256 (resend who <$> tr) w = run_trace keccak256 tr w.
Proof.
  induction tr as [|tx tr IH]; intros w; [reflexivity|].
  cbn [fmap list_fmap run_trace foldl].
  fold (run_trace keccak256 (resend who <$> tr) (transact keccak256 (resend who tx) w)).
  fold (run_trace keccak256 tr (transact keccak256 tx w)).
  rewrite IH. f_equal.
  destruct tx as [[n d i c | r c | r p] [sender ts]]; [reflexivity | reflexivity |].
  unfold transact; cbn [resend exec fst snd block_timestamp].
  by rewrite (validateSignal_any_sender r p who sender ts w).
Qed.

(** ** The group table *)

Lemma storage_step_record st st' r :
  wf st -> storage_step st st' ->
  exists_ (groups_at st r) = true -> groups_at st' r = groups_at st r.
Proof.
  intros Hwf Hstep He. apply (wf_exists_iff _ _ Hwf) in He.
  destruct Hstep; try reflexivity.
  rewrite groups_at_insert. destruct (decide _); [lia | done].
Qed.

(** X4: in a reachable state a record, once stored, is never changed:
    after any trace of transactions [groups[r]] reads as before, service
    group id, creator, creation time and strings alike. *)
Theorem group_record_immutable tr w r :
  reachable keccak256 w ->
  exists_ (groups_at (contract w) r) = true ->
  groups_at (contract (run_trace keccak256 tr w)) r = groups_at (contract w) r.
Proof.
  revert w. induction tr as [|tx tr IH]; intros w Hr He; [reflexivity|].
  cbn [run_trace foldl]. fold (run_trace keccak256 tr (transact keccak256 tx w)).
  assert (Hs : groups_at (contract (transact keccak256 tx w)) r
               = groups_at (contract w) r).
  { apply storage_step_record;
      [by apply (reachable_wf keccak256) | apply (transact_storage keccak256) | done]. }
  rewrite IH; [exact Hs | by apply reach_step | by rewrite Hs].
Qed.

(** X5: in a reachable state the [GroupCreated] events of the log, read
    in order, are the listing of the group table: the [k]-th of them
    carries registry id [k] and the fields of the record stored for [k],
    and there are [nextGroupIndex] of them. *)
Theorem created_events_are_the_table w :
  reachable keccak256 w ->
  omap record_of (log w) = groups_table (contract w).
Proof.
  revert w. apply reachable_step_ind; [reflexivity|].
  intros w w' Hr IH Hstep. apply reachable_wf in Hr.
  destruct Hstep as [| gid s' env n d i c _ _ | r c env s' _ _ _ | r p env s' _ _ _];
    cbn [log contract].
  - exact IH.
  - rewrite omap_app, IH. cbn [omap list_omap record_of].
    unfold groups_table; cbn [nextGroupIndex].
    replace (N.to_nat (nextGroupIndex (contract w) + 1))
      with (Datatypes.S (N.to_nat (nextGroupIndex (contract w)))) by lia.
    rewrite seq_S, fmap_app. cbn [fmap list_fmap plus].
    rewrite groups_at_insert, N2Nat.id.
    destruct (decide _); [|done]. f_equal.
    apply list_fmap_ext. intros j k Hk. apply lookup_seq in Hk as [-> Hlt].
    rewrite groups_at_insert. destruct (decide _); [lia | done].
  - rewrite omap_app, IH. cbn [omap list_omap record_of]. by rewrite app_nil_r.
  - rewrite omap_app, IH. cbn [omap list_omap record_of]. by rewrite app_nil_r.
Qed.

(** ** The event log against the storage *)

Lemma omap_snoc_some {A B} (f : A -> option B) l x y :
  f x = Some y -> omap f (l ++ [x]) = omap f l ++ [y].
Proof. intros H. rewrite omap_app. cbn. by rewrite H. Qed.

Lemma omap_snoc_none {A B} (f : A -> option B) l x :
  f x = None -> omap f (l ++ [x]) = omap f l.
Proof. intros H. rewrite omap_app. cbn. by rewrite H, app_nil_r. Qed.

(** X6: in a reachable state the join markers and the [MemberJoined]
    events tell the same story: [hasJoined[r][a]] is set exactly when the
    log holds a [MemberJoined] for [r] and [a], and no two such events
    carry the same pair. *)
Theorem join_markers_match_events w :
  reachable keccak256 w ->
  (forall r a, hasJoined_at (contract w) r a = true <-> (r, a) ∈ omap joined_of (log w)) /\
  NoDup (omap joined_of (log w)).
Proof.
  revert w. apply reachable_step_ind.
  - intros s0. cbn. split; [|constructor].
    intros r a. split; [done | by intros ?%elem_of_nil].
  - intros w w' _ [IH1 IH2] Hstep.
    destruct Hstep as [| gid s' env n d i c _ _ | r c env s' _ Hj _ | r p env s' _ _ _];
      cbn [log contract].
    + by split.
    + rewrite omap_snoc_none by done. by split.
    + rewrite (omap_snoc_some _ _ _ (r, msg_sender env)) by done. split.
      * intros r' a'. rewrite hasJoined_at_insert, elem_of_app, list_elem_of_singleton.
        destruct (decide _) as [<-|Hne]; [by intuition|].
        rewrite IH1. split; [by left|]. intros [?|E]; [done | by destruct Hne].
      * apply NoDup_app. split; [done|]. split; [|apply NoDup_singleton].
        intros x Hx ->%list_elem_of_singleton.
        apply IH1 in Hx. by rewrite Hx in Hj.
    + rewrite omap_snoc_none by done. by split.
Qed.

(** X7: likewise for nullifiers: [nullifierUsed[r][n]] is set exactly
    when the log holds a [SignalSent] for [r] with nullifier [n], and no
    two [SignalSent] events carry the same registry id and nullifier. *)
Theorem nullifier_marks_match_events w :
  reachable keccak256 w ->
  (forall r n, nullifierUsed_at (contract w) r n = true <-> (r, n) ∈ omap used_of (log w)) /\
  NoDup (omap used_of (log w)).
Proof.
  revert w. apply reachable_step_ind.
  - intros s0. cbn. split; [|constructor].
    intros r a. split; [done | by intros ?%elem_of_nil].
  - intros w w' _ [IH1 IH2] Hstep.
    destruct Hstep as [| gid s' env n d i c _ _ | r c env s' _ _ _ | r p env s' _ Hn _];
      cbn [log contract].
    + by split.
    + rewrite omap_snoc_none by done. by split.
    + rewrite omap_snoc_none by done. by split.
    + rewrite (omap_snoc_some _ _ _ (r, nullifier p)) by done. split.
      * intros r' n'. rewrite nullifierUsed_at_insert, elem_of_app, list_elem_of_singleton.
        destruct (decide _) as [<-|Hne]; [by intuition|].
        rewrite IH1. split; [by left|]. intros [?|E]; [done | by destruct Hne].
      * apply NoDup_app. split; [done|]. split; [|apply NoDup_singleton].
        intros x Hx ->%list_elem_of_singleton.
        apply IH1 in Hx. by rewrite Hx in Hn.
Qed.

(** X8: in a reachable state every event of the log names a registry
    id that has a record, and the service group id it carries is the one
    stored in that record. *)
Theorem events_carry_stored_group_id w e :
  reachable keccak256 w ->
  e ∈ log w ->
  exists_ (groups_at (contract w) (event_ids e).1) = true /\
  groupId (groups_at (contract w) (event_ids e).1) = (event_ids e).2.
Proof.
  intros Hr. revert e. revert w Hr. apply (reachable_step_ind
    (fun w => forall e, e ∈ log w ->
       exists_ (groups_at (contract w) (event_ids e).1) = true /\
       groupId (groups_at (contract w) (event_ids e).1) = (event_ids e).2)).
  - intros s0 e H. by apply elem_of_nil in H.
  - intros w w' Hr IH Hstep e. apply (reachable_wf keccak256) in Hr.
    destruct Hstep as [| gid s' env n d i c _ _ | r c env s' He _ _ | r p env s' He _ _];
      cbn [log contract]; [apply IH | | |];
      rewrite elem_of_app, list_elem_of_singleton; intros [Hin | ->].
    + rewrite groups_at_insert. destruct (decide _) as [Heq|]; [|by apply IH].
      apply IH in Hin as [Hin _]. rewrite <- Heq in Hin.
      apply (wf_exists_iff _ _ Hr) in Hin. lia.
    + cbn [event_ids fst snd]. rewrite groups_at_insert. by destruct (decide _).
    + by apply IH.
    + by cbn.
    + by apply IH.
    + by cbn.
Qed.

(** X9: in a reachable state the calls made to the service by the
    transactions that went through mirror the log: the (group id,
    commitment) pairs passed to [addMember] are, in
    order, those of the [MemberJoined] events, and the (group id,
    nullifier, signal hash, scope hash) of the proofs passed to
    [validateProof] are, in order, those of the [SignalSent] events. *)
Theorem service_calls_mirror_events w :
  reachable keccak256 w ->
  omap added_of (extcalls w) = omap member_of (log w) /\
  omap (checked_of keccak256) (extcalls w) = omap sent_of (log w).
Proof.
  revert w. apply reachable_step_ind; [by intros s0|].
  intros w w' _ [IH1 IH2] Hstep.
  destruct Hstep as [| gid s' env n d i c _ _ | r c env s' _ _ _ | r p env s' _ _ _];
    cbn [log extcalls].
  - by split.
  - rewrite !omap_snoc_none by done. by split.
  - rewrite (omap_snoc_none (checked_of keccak256)), (omap_snoc_none sent_of) by done.
    rewrite (omap_snoc_some added_of _ _ (groupId (groups_at (contract w) r), c)),
      (omap_snoc_some member_of _ _ (groupId (groups_at (contract w) r), c)) by done.
    by rewrite IH1.
  - rewrite (omap_snoc_none added_of), (omap_snoc_none member_of) by done.
    rewrite (omap_snoc_some (checked_of keccak256) _ _
               (groupId (groups_at (contract w) r), nullifier p,
                fieldHash keccak256 (message p), fieldHash keccak256 (scope p))),
      (omap_snoc_some sent_of _ _
               (groupId (groups_at (contract w) r), nullifier p,
                fieldHash keccak256 (message p), fieldHash keccak256 (scope p))) by done.
    by rewrite IH2.
Qed.

End MoreProperties.

(** * Properties of the log scanning *)

Section FetchLogsProperties.
Import FetchLogs.
Local Open Scope Z_scope.
Context {C L : Type}.
Variable getLogs : C -> Z -> Z -> Outcome RpcError (list L) * C.
Variable block_logs : Z -> list L.

Lemma range_logs_empty a b : b < a -> range_logs block_logs a b = [].
Proof.
  intros H. unfold range_logs. by rewrite seqZ_nil by lia.
Qed.

Lemma range_logs_split a b c :
  a <= b + 1 -> b <= c ->
  range_logs block_logs a b ++ range_logs block_logs (b + 1) c =
  range_logs block_logs a c.
Proof.
  intros H1 H2. unfold range_logs.
  replace (c - a + 1) with ((b - a + 1) + (c - (b + 1) + 1)) by lia.
  rewrite (seqZ_app a (b - a + 1) (c - (b + 1) + 1)) by lia. rewrite bind_app.
  by replace (a + (b - a + 1)) with (b + 1) by lia.
Qed.

(** The end of the chunk that starts at [cur]. *)
Lemma endBlock_cases latest chunk cur :
  cur <= latest -> 0 < chunk ->
  let e := if cur + chunk - 1 >? latest then latest else cur + chunk - 1 in
  cur <= e /\ e <= latest.
Proof.
  intros H1 H2. cbn. destruct (Z.gtb_spec (cur + chunk - 1) latest); lia.
Qed.

(** ** A client that always answers *)

Section Healthy.
Hypothesis healthy : forall c a b, (getLogs c a b).1 = Returned (range_logs block_logs a b).

Lemma chunk_loop_healthy retry latest chunk :
  0 < chunk ->
  forall fuel cur acc c,
    cur <= latest + 1 ->
    (Z.to_nat (latest - cur + 1) <= fuel)%nat ->
    exists c',
      chunk_loop getLogs retry fuel latest chunk cur acc c =
      Some (Returned (acc ++ range_logs block_logs cur latest), c').
Proof.
  intros Hc. induction fuel as [|fuel IH]; intros cur acc c Hcur Hfuel.
  - assert (cur = latest + 1) as -> by lia.
    cbn. rewrite (proj2 (Z.leb_gt _ _)) by lia.
    rewrite range_logs_empty by lia. rewrite app_nil_r. eauto.
  - cbn [chunk_loop]. destruct (Z.leb_spec cur latest) as [Hle|Hgt].
    + destruct (endBlock_cases latest chunk cur Hle Hc) as [He1 He2].
      set (e := if cur + chunk - 1 >? latest then latest else cur + chunk - 1) in *.
      cbn zeta. fold e.
      pose proof (healthy c cur e) as Hh.
      destruct (getLogs c cur e) as [o c1]. cbn in Hh. subst o.
      destruct (IH (e + 1) (acc ++ range_logs block_logs cur e) c1) as [c' ->];
        [lia | lia |].
      exists c'. rewrite <- app_assoc. by rewrite range_logs_split by lia.
    + rewrite range_logs_empty by lia. rewrite app_nil_r. eauto.
Qed.

(** X10: against a client that answers every request with the logs of the
    requested blocks, [fetchLogsInChunks] with a positive chunk size ends
    (within one step per block of the range, plus one) and returns the logs
    of [fromBlock .. toBlock]: every block once, in order, whatever the
    chunk size. *)
Theorem fetchLogsInChunks_complete fuel fromBlock toBlock chunkSize c :
  0 < chunkSize ->
  (Z.to_nat (toBlock - fromBlock + 1) < fuel)%nat ->
  exists c',
    fetchLogsInChunks getLogs fuel fromBlock toBlock chunkSize c =
    Some (Returned (range_logs block_logs fromBlock toBlock), c').
Proof.
  intros Hc Hfuel. destruct fuel as [|fuel]; [lia|].
  cbn [fetchLogsInChunks]. cbn zeta.
  destruct (Z.leb_spec (toBlock - fromBlock + 1) chunkSize).
  - pose proof (healthy c fromBlock toBlock) as Hh.
    destruct (getLogs c fromBlock toBlock) as [o c1]. cbn in Hh. subst o. eauto.
  - apply (chunk_loop_healthy _ toBlock chunkSize Hc fuel fromBlock [] c); lia.
Qed.

(** X11: with a chunk size of zero or less and a range of at least one
    block, the loop never moves past its first chunk: against a client
    that always answers, [fetchLogsInChunks] does not end, however many
    steps it is given. *)
Theorem fetchLogsInChunks_zero_chunk_diverges fuel fromBlock toBlock chunkSize c :
  chunkSize <= 0 ->
  fromBlock <= toBlock ->
  fetchLogsInChunks getLogs fuel fromBlock toBlock chunkSize c = None.
Proof.
  intros Hc Hr.
  assert (Hloop : forall retry n cur acc c0,
            cur <= toBlock ->
            chunk_loop getLogs retry n toBlock chunkSize cur acc c0 = None).
  { intros retry. induction n as [|n IH]; intros cur acc c0 Hcur.
    - cbn. by rewrite (proj2 (Z.leb_le _ _)) by lia.
    - cbn [chunk_loop]. rewrite (proj2 (Z.leb_le _ _)) by lia.
      destruct (Z.gtb_spec (cur + chunkSize - 1) toBlock); [lia|].
      pose proof (healthy c0 cur (cur + chunkSize - 1)) as Hh.
      destruct (getLogs c0 cur (cur + chunkSize - 1)) as [o c1]. cbn in Hh. subst o.
      apply IH. lia. }
  destruct fuel as [|fuel]; [reflexivity|].
  cbn [fetchLogsInChunks]. cbn zeta.
  rewrite (proj2 (Z.leb_gt _ _)) by lia. by apply Hloop.
Qed.

End Healthy.

(** ** A client that may fail but does not lie *)

(** With a chunk size of zero or less the loop, once entered, hands back
    no logs. *)
Lemma chunk_loop_stuck retry latest chunk :
  chunk <= 0 ->
  forall fuel cur acc c logs c',
    cur <= latest ->
    chunk_loop getLogs retry fuel latest chunk cur acc c <> Some (Returned logs, c').
Proof.
  intros Hc. induction fuel as [|fuel IH]; intros cur acc c logs c' Hcur.
  - cbn. by rewrite (proj2 (Z.leb_le _ _)) by lia.
  - cbn [chunk_loop]. rewrite (proj2 (Z.leb_le _ _)) by lia.
    destruct (Z.gtb_spec (cur + chunk - 1) latest); [lia|].
    destruct (getLogs c cur (cur + chunk - 1)) as [[logs1|err] c1].
    + apply IH. lia.
    + destruct (is_block_range err); [|discriminate].
      destruct (retry cur (cur + chunk - 1) c1) as [[[logs2|e2] c2]|];
        [apply IH; lia | discriminate | discriminate].
Qed.

Section Truthful.
Hypothesis truthful : forall c a b logs c',
  getLogs c a b = (Returned logs, c') -> logs = range_logs block_logs a b.

Lemma chunk_loop_sound retry latest chunk :
  0 < chunk ->
  (forall a b c logs c',
     retry a b c = Some (Returned logs, c') -> logs = range_logs block_logs a b) ->
  forall fuel cur acc c logs c',
    chunk_loop getLogs retry fuel latest chunk cur acc c = Some (Returned logs, c') ->
    logs = acc ++ range_logs block_logs cur latest.
Proof.
  intros Hc Hretry. induction fuel as [|fuel IH]; intros cur acc c logs c'.
  - cbn. destruct (Z.leb_spec cur latest); [discriminate|].
    intros [= <- <-]. rewrite range_logs_empty by lia. by rewrite app_nil_r.
  - cbn [chunk_loop]. destruct (Z.leb_spec cur latest) as [Hle|Hgt].
    + destruct (endBlock_cases latest chunk cur Hle Hc) as [He1 He2].
      set (e := if cur + chunk - 1 >? latest then latest else cur + chunk - 1) in *.
      cbn zeta. fold e.
      destruct (getLogs c cur e) as [[logs1|err] c1] eqn:Hg.
      * intros H. apply IH in H. apply truthful in Hg. subst logs1.
        rewrite H, <- app_assoc. by rewrite range_logs_split by lia.
      * destruct (is_block_range err); [|discriminate].
        destruct (retry cur e c1) as [[[logs2|e2] c2]|] eqn:Hr; try discriminate.
        intros H. apply IH in H. apply Hretry in Hr. subst logs2.
        rewrite H, <- app_assoc. by rewrite range_logs_split by lia.
    + intros [= <- <-]. rewrite range_logs_empty by lia. by rewrite app_nil_r.
Qed.

(** X12: against a client that may throw at any request but whose
    answers, when it answers, are the logs of the requested blocks:
    whenever [fetchLogsInChunks] returns, after whatever retries with
    halved chunk sizes, the result is the logs of [fromBlock .. toBlock],
    every block once and in order. *)
Theorem fetchLogsInChunks_sound fuel : forall fromBlock toBlock chunkSize c logs c',
  fetchLogsInChunks getLogs fuel fromBlock toBlock chunkSize c = Some (Returned logs, c') ->
  logs = range_logs block_logs fromBlock toBlock.
Proof.
  induction fuel as [|fuel IH]; intros fromBlock toBlock chunkSize c logs c';
    [discriminate|].
  cbn [fetchLogsInChunks]. cbn zeta.
  destruct (Z.leb_spec (toBlock - fromBlock + 1) chunkSize) as [Hsmall|Hbig].
  - intros [= H]. by apply truthful in H.
  - destruct (Z.lt_ge_cases 0 chunkSize) as [Hpos|Hnp].
    + intros H. apply (chunk_loop_sound _ toBlock chunkSize Hpos) in H;
        [exact H | intros a b c0 l0 c0'; apply IH].
    + destruct (Z.le_gt_cases fromBlock toBlock) as [Hle|Hgt].
      * intros H. by apply chunk_loop_stuck in H.
      * destruct fuel; cbn; rewrite (proj2 (Z.leb_gt _ _)) by lia;
          intros [= <- <-]; by rewrite range_logs_empty by lia.
Qed.

End Truthful.

(** ** The requests made *)

Lemma within_weaken f t k f' t' k' ab :
  f' <= f -> t <= t' -> k <= k' -> within f t k ab -> within f' t' k' ab.
Proof. unfold within. lia. Qed.

(** The two ways of running out of steps agree on the runs that end. *)
Lemma chunk_loop_upto_ended retry retry' latest chunk :
  (forall a b c, ended (retry' a b c) = retry a b c) ->
  forall fuel cur acc c,
    ended (chunk_loop_upto getLogs retry' fuel latest chunk cur acc c) =
    chunk_loop getLogs retry fuel latest chunk cur acc c.
Proof.
  intros Hretry. induction fuel as [|fuel IH]; intros cur acc c.
  - cbn. by destruct (cur <=? latest).
  - cbn [chunk_loop_upto chunk_loop]. destruct (cur <=? latest); [|reflexivity].
    cbn zeta. destruct (getLogs c cur _) as [[logs|err] c1]; [apply IH|].
    destruct (is_block_range err); [|reflexivity].
    rewrite <- Hretry.
    destruct (retry' cur _ c1) as [[[logs2|e2]|] c2]; [apply IH | reflexivity | reflexivity].
Qed.

Lemma fetchLogsInChunks_upto_ended fuel : forall fromBlock toBlock chunkSize c,
  ended (fetchLogsInChunks_upto getLogs fuel fromBlock toBlock chunkSize c) =
  fetchLogsInChunks getLogs fuel fromBlock toBlock chunkSize c.
Proof.
  induction fuel as [|fuel IH]; intros fromBlock toBlock chunkSize c; [reflexivity|].
  cbn [fetchLogsInChunks_upto fetchLogsInChunks]. cbn zeta.
  destruct (_ <=? chunkSize).
  - by destruct (getLogs c fromBlock toBlock).
  - apply chunk_loop_upto_ended. intros a b c0. apply IH.
Qed.

Lemma chunk_loop_requests retry latest chunk fromBlock :
  0 <= chunk ->
  (forall a b cr res cr',
     retry a b cr = (res, cr') ->
     exists new, cr'.2 = cr.2 ++ new /\ Forall (within a b (chunk `div` 2)) new) ->
  forall fuel cur acc cr res cr',
    fromBlock <= cur ->
    chunk_loop_upto (traced getLogs) retry fuel latest chunk cur acc cr = (res, cr') ->
    exists new, cr'.2 = cr.2 ++ new /\ Forall (within fromBlock latest chunk) new.
Proof.
  intros Hc Hretry.
  assert (Hhalf : chunk `div` 2 <= chunk) by (apply Z.div_le_upper_bound; lia).
  induction fuel as [|fuel IH]; intros cur acc cr res cr' Hcur.
  - cbn. destruct (Z.leb_spec cur latest);
      intros [= <- <-]; exists []; by rewrite app_nil_r.
  - cbn [chunk_loop_upto]. destruct (Z.leb_spec cur latest) as [Hle|Hgt].
    + set (e := if cur + chunk - 1 >? latest then latest else cur + chunk - 1).
      assert (He : cur - 1 <= e /\ e <= latest /\ e - cur + 1 <= chunk).
      { subst e. destruct (Z.gtb_spec (cur + chunk - 1) latest); lia. }
      unfold traced at 1. destruct (getLogs cr.1 cur e) as [[logs1|err] c1].
      * intros H. apply IH in H as (new & Hn & Hf); [|lia]. cbn in Hn.
        exists ((cur, e) :: new). rewrite Hn, <- app_assoc. split; [done|].
        constructor; [unfold within; cbn; lia | done].
      * destruct (is_block_range err).
        -- destruct (retry cur e (c1, cr.2 ++ [(cur, e)])) as [[[logs2|e2]|] c2] eqn:Hr.
           ++ apply Hretry in Hr as (new1 & Hn1 & Hf1). cbn in Hn1.
              intros H. apply IH in H as (new & Hn & Hf); [|lia].
              exists ((cur, e) :: new1 ++ new).
              rewrite Hn, Hn1, <- !app_assoc. split; [done|].
              constructor; [unfold within; cbn; lia|].
              apply Forall_app. split; [|done].
              eapply Forall_impl; [exact Hf1|]. intros ab. apply within_weaken; lia.
           ++ apply Hretry in Hr as (new1 & Hn1 & Hf1). cbn in Hn1.
              intros [= <- <-]. exists ((cur, e) :: new1).
              rewrite Hn1, <- !app_assoc. split; [done|].
              constructor; [unfold within; cbn; lia|].
              eapply Forall_impl; [exact Hf1|]. intros ab. apply within_weaken; lia.
           ++ apply Hretry in Hr as (new1 & Hn1 & Hf1). cbn in Hn1.
              intros [= <- <-]. exists ((cur, e) :: new1).
              rewrite Hn1, <- !app_assoc. split; [done|].
              constructor; [unfold within; cbn; lia|].
              eapply Forall_impl; [exact Hf1|]. intros ab. apply within_weaken; lia.
        -- intros [= <- <-]. exists [(cur, e)]. cbn. split; [done|].
           constructor; [unfold within; cbn; lia | constructor].
    + intros [= <- <-]. exists []. by rewrite app_nil_r.
Qed.

(** X13: whatever the client does, with a chunk size of zero or more
    every request [fetchLogsInChunks] makes, retries included, stays
    inside [fromBlock .. toBlock] and spans at most [chunkSize] blocks:
    this holds of the requests made within any number of steps, whether
    by then the run has returned, has thrown or is still going (as the
    runs with a chunk size that is, or is halved to, zero are for ever). *)
Theorem fetchLogsInChunks_requests_bounded fuel :
  forall fromBlock toBlock chunkSize cr res cr',
    0 <= chunkSize ->
    fetchLogsInChunks_upto (traced getLogs) fuel fromBlock toBlock chunkSize cr
      = (res, cr') ->
    exists new,
      cr'.2 = cr.2 ++ new /\ Forall (within fromBlock toBlock chunkSize) new.
Proof.
  induction fuel as [|fuel IH]; intros fromBlock toBlock chunkSize cr res cr' Hc.
  { intros [= <- <-]. exists []. by rewrite app_nil_r. }
  cbn [fetchLogsInChunks_upto]. cbn zeta.
  destruct (Z.leb_spec (toBlock - fromBlock + 1) chunkSize) as [Hsmall|Hbig].
  - unfold traced. destruct (getLogs cr.1 fromBlock toBlock) as [o c1].
    intros [= <- <-]. exists [(fromBlock, toBlock)]. split; [done|].
    constructor; [unfold within; cbn; lia | constructor].
  - intros H. eapply (chunk_loop_requests _ toBlock chunkSize fromBlock Hc);
      [|reflexivity|exact H].
    intros a b cr0 res0 cr0'. apply IH. by apply Z.div_pos.
Qed.

End FetchLogsProperties.

(** * Properties of the member and group listings *)

Section ListingProperties.
Local Open Scope Z_scope.
Context {C : Type}.
Variable getBlockNumber : C -> Outcome FetchLogs.RpcError Z * C.
Variable getLogs :
  C -> LogFilter -> Z -> Z -> Outcome FetchLogs.RpcError (list DecodedLog) * C.
Variable readGroups :
  C -> N -> Outcome FetchLogs.RpcError (option (N * N * N * bool)) * C.

(** ** The scan window *)

(** X14: the two listings compute the same first block, [latestBlock -
    10000] cut off at 0; for a chain head at or above 0 the window ends at
    the head, starts at or above block 0 and holds at most 10001 blocks. *)
Theorem scan_window latestBlock :
  0 <= latestBlock ->
  GroupMembers.fromBlock latestBlock = UserGroups.fromBlock latestBlock /\
  UserGroups.fromBlock latestBlock = Z.max 0 (latestBlock - 10000) /\
  0 <= UserGroups.fromBlock latestBlock <= latestBlock /\
  latestBlock - UserGroups.fromBlock latestBlock + 1 <= 10001.
Proof.
  intros H. unfold GroupMembers.fromBlock, UserGroups.fromBlock.
  destruct (Z.gtb_spec latestBlock 10000), (Z.gtb_spec (latestBlock - 10000) 0); lia.
Qed.

(** ** fetchGroupMembers *)

Lemma GroupMembers_collect_from events : forall acc,
  foldl
    (fun commitments event =>
       match args event with
       | Some a =>
           match arg_commitment a with
           | Some cm => if (cm =? 0)%N then commitments else commitments ++ [cm]
           | None => commitments
           end
       | None => commitments
       end)
    acc events
  = acc ++ GroupMembers.nonzero_commitments events.
Proof.
  unfold GroupMembers.nonzero_commitments.
  induction events as [|[[a|]] events IH]; intros acc; cbn [foldl].
  - by rewrite app_nil_r.
  - rewrite IH. cbn [omap list_omap args mbind option_bind].
    destruct (arg_commitment a) as [cm|]; cbn; [|done].
    destruct (N.eqb_spec cm 0) as [->|Hne].
    + by destruct (decide _).
    + destruct (decide _); [|done]. by rewrite <- app_assoc.
  - by rewrite IH.
Qed.

(** X15: when the head of the chain and the [MemberJoined] logs of the
    window are obtained, [fetchGroupMembers] returns the commitments of
    those logs in log order, leaving out logs without decoded arguments
    and commitments equal to 0, and throws "No members found ..." when
    nothing is left. *)
Theorem fetchGroupMembers_result registryId c latestBlock c1 events c2 :
  getBlockNumber c = (Returned latestBlock, c1) ->
  getLogs c1 (mkLogFilter (Some registryId) None)
    (Z.max 0 (latestBlock - 10000)) latestBlock = (Returned events, c2) ->
  GroupMembers.fetchGroupMembers getBlockNumber getLogs registryId c =
    (if decide (GroupMembers.nonzero_commitments events = [])
     then Thrown (new_Error GroupMembers.no_members)
     else Returned (GroupMembers.nonzero_commitments events), c2).
Proof.
  intros Hb Hl. unfold GroupMembers.fetchGroupMembers. rewrite Hb. cbn zeta.
  replace (GroupMembers.fromBlock latestBlock) with (Z.max 0 (latestBlock - 10000))
    by (unfold GroupMembers.fromBlock; destruct (Z.gtb_spec latestBlock 10000); lia).
  rewrite Hl. unfold GroupMembers.collect.
  rewrite GroupMembers_collect_from. cbn [app].
  destruct (GroupMembers.nonzero_commitments events); reflexivity.
Qed.

(** ** fetchUserGroups *)

Lemma set_add_NoDup x s : NoDup s -> NoDup (UserGroups.set_add x s).
Proof.
  intros H. unfold UserGroups.set_add. destruct (decide _); [done|].
  apply NoDup_app. split; [done|]. split; [|apply NoDup_singleton].
  by intros y Hy ->%list_elem_of_singleton.
Qed.

Lemma UserGroups_collect_NoDup events : NoDup (UserGroups.collect events).
Proof.
  unfold UserGroups.collect.
  assert (H : NoDup (@nil N)) by constructor. revert H. generalize (@nil N).
  induction events as [|[[a|]] events IH]; intros acc Hacc; cbn [foldl]; [done| |];
    apply IH; [|done].
  cbn. destruct (arg_registryId a); [by apply set_add_NoDup | done].
Qed.

Lemma read_all_listing ids : forall acc c gs c',
  UserGroups.read_all readGroups ids acc c = (Returned gs, c') ->
  exists new,
    gs = acc ++ new /\
    (UserGroups.registryId <$> new) `sublist_of` ids /\
    Forall (fun g => UserGroups.exists_ g = true) new.
Proof.
  induction ids as [|r ids IH]; intros acc c gs c'; cbn [UserGroups.read_all].
  - intros [= <- <-]. exists []. by rewrite app_nil_r.
  - destruct (readGroups c r) as [[groupData|e] c1]; [|discriminate].
    intros H. apply IH in H as (new & -> & Hsub & Hall).
    destruct groupData as [[[[gid cr] at_] [|]]|].
    + exists (UserGroups.mkGroup r gid cr at_ true :: new).
      rewrite <- app_assoc. split; [done|]. split; [by apply sublist_skip|].
      by constructor.
    + exists new. split; [done|]. split; [by apply sublist_cons | done].
    + exists new. split; [done|]. split; [by apply sublist_cons | done].
Qed.

(** [Number] is exact below [2^53]. *)
Lemma Number_exact n : (n < 2 ^ 53)%N -> Number n = n.
Proof. intros H. unfold Number. by rewrite (proj2 (N.ltb_lt _ _) H). Qed.

(** X16: whatever the client answers, when [fetchUserGroups] returns a
    list, no registry id (the [number] the ids of the logs were turned
    into) occurs in it twice, however many [MemberJoined] logs name it,
    and every group listed was read with [exists = true]. *)
Theorem fetchUserGroups_listing fuel userAddress c gs c' :
  UserGroups.fetchUserGroups getBlockNumber getLogs readGroups fuel userAddress c
    = Some (Returned gs, c') ->
  NoDup (UserGroups.registryId <$> gs) /\
  Forall (fun g => UserGroups.exists_ g = true) gs.
Proof.
  unfold UserGroups.fetchUserGroups.
  destruct (getBlockNumber c) as [[latest|e] c1]; [|discriminate].
  cbn zeta. destruct (FetchLogs.fetchLogsInChunks _ _ _ _ _ _) as [[[events|e] c2]|];
    [|discriminate|discriminate].
  intros [= H]. apply read_all_listing in H as (new & -> & Hsub & Hall).
  cbn [app]. split; [|done].
  eapply sublist_NoDup; [apply UserGroups_collect_NoDup | exact Hsub].
Qed.

(** X17: [fetchUserGroups] scans at most 10001 blocks in chunks of 2000:
    against a client that reports its head and answers every log request
    with the logs of the requested blocks, the scan ends within 10002
    steps and the groups are read for the unique [Number]s of the registry
    ids of all logs of the window, in the order of their first log. *)
Theorem fetchUserGroups_scans_window fuel userAddress block_logs c latestBlock c1 :
  (forall c' a b,
     (getLogs c' (mkLogFilter None (Some userAddress)) a b).1 =
     Returned (FetchLogs.range_logs block_logs a b)) ->
  getBlockNumber c = (Returned latestBlock, c1) ->
  10002 <= Z.of_nat fuel ->
  exists c2,
    UserGroups.fetchUserGroups getBlockNumber getLogs readGroups fuel userAddress c =
    Some (UserGroups.read_all readGroups
            (UserGroups.collect
               (FetchLogs.range_logs block_logs
                  (Z.max 0 (latestBlock - 10000)) latestBlock))
            [] c2).
Proof.
  intros Hh Hb Hfuel. unfold UserGroups.fetchUserGroups. rewrite Hb. cbn zeta.
  replace (UserGroups.fromBlock latestBlock) with (Z.max 0 (latestBlock - 10000))
    by (unfold UserGroups.fromBlock; destruct (Z.gtb_spec (latestBlock - 10000) 0); lia).
  destruct fuel as [|fuel]; [lia|].
  cbn [FetchLogs.fetchLogsInChunks]. cbn zeta.
  destruct (Z.leb_spec (latestBlock - Z.max 0 (latestBlock - 10000) + 1) 2000).
  - pose proof (Hh c1 (Z.max 0 (latestBlock - 10000)) latestBlock) as Hl.
    destruct (getLogs c1 _ _ _) as [o c2]. cbn in Hl. subst o. by exists c2.
  - destruct (chunk_loop_healthy
                (fun c' a b => getLogs c' (mkLogFilter None (Some userAddress)) a b)
                block_logs Hh
                (fun f t => FetchLogs.fetchLogsInChunks
                   (fun c' a b => getLogs c' (mkLogFilter None (Some userAddress)) a b)
                   fuel f t (2000 `div` 2))
                latestBlock 2000 ltac:(lia) fuel
                (Z.max 0 (latestBlock - 10000)) [] c1)
      as [c2 ->]; [lia | lia |]. by exists c2.
Qed.

End ListingProperties.

(** * Properties of the "My Groups" page *)

Section MyGroupsProperties.
Context {S : Type} `{Sem : ISemaphore S}.
Variable keccak256 : list Byte.byte -> N.
Local Open Scope N_scope.

Lemma checkMembership_loop_filter read a n : forall i joined,
  MyGroups.checkMembership_loop read n i a joined =
  joined ++ filter (fun r => read r a = Some true)
              ((fun k => i + N.of_nat k) <$> seq 0 n).
Proof.
  induction n as [|n IH]; intros i joined; cbn [MyGroups.checkMembership_loop].
  - cbn. by rewrite app_nil_r.
  - rewrite IH. cbn [seq fmap list_fmap]. rewrite <- fmap_S_seq, <- list_fmap_compose.
    replace (i + N.of_nat 0) with i by lia.
    assert (Hext : (fun k => i + 1 + N.of_nat k) <$> seq 0 n =
                   ((fun k => i + N.of_nat k) ∘ Datatypes.S) <$> seq 0 n).
    { apply list_fmap_ext. intros j k _. cbn. lia. }
    rewrite Hext.
    destruct (read i a) as [[|]|] eqn:E.
    + rewrite filter_cons_True by done. by rewrite <- app_assoc.
    + by rewrite filter_cons_False by (rewrite E; discriminate).
    + by rewrite filter_cons_False by (rewrite E; discriminate).
Qed.

(** X18: for a connected account, with the counter and the join markers
    read from one reachable state of the contract (the counter below
    [2^53], where [Number] is exact), the page lists exactly the registry
    ids the account has joined, in increasing order: every joined group
    lies below [nextGroupIndex], so the scan misses none. *)
Theorem my_groups_lists_joined w a :
  reachable keccak256 w ->
  nextGroupIndex (contract w) < 2 ^ 53 ->
  MyGroups.myGroupIds (MyGroups.snapshot (contract w)) (Some a) true
    (Some (nextGroupIndex (contract w))) true true =
    filter (fun r => hasJoined_at (contract w) r a = true)
      (N.of_nat <$> seq 0 (N.to_nat (nextGroupIndex (contract w)))) /\
  (forall r,
     r ∈ MyGroups.myGroupIds (MyGroups.snapshot (contract w)) (Some a) true
           (Some (nextGroupIndex (contract w))) true true
     <-> hasJoined_at (contract w) r a = true).
Proof.
  intros Hr _. apply (reachable_wf keccak256) in Hr.
  assert (Heq : MyGroups.myGroupIds (MyGroups.snapshot (contract w)) (Some a) true
    (Some (nextGroupIndex (contract w))) true true =
    filter (fun r => hasJoined_at (contract w) r a = true)
      (N.of_nat <$> seq 0 (N.to_nat (nextGroupIndex (contract w))))).
  { unfold MyGroups.myGroupIds. cbn [negb orb].
    rewrite !orb_false_r.
    destruct (N.eqb_spec (nextGroupIndex (contract w)) 0) as [->|Hne]; [reflexivity|].
    unfold MyGroups.checkMembership. rewrite checkMembership_loop_filter. cbn [app].
    unfold MyGroups.snapshot.
    erewrite list_fmap_ext; [|intros j k _; apply N.add_0_l].
    apply list_filter_iff. intros r. split; [by intros [= ->] | by intros ->]. }
  split; [exact Heq|]. intros r. rewrite Heq, list_elem_of_filter, list_elem_of_fmap.
  split; [by intros [? _]|]. intros Hj. split; [done|].
  exists (N.to_nat r). split; [lia|]. apply elem_of_seq.
  apply (wf_joined _ Hr) in Hj. lia.
Qed.

(** ** The "Create Group" page *)

(** X19: the registry id the page files the metadata under is the one
    [createGroup] hands out exactly when no other [createGroup] has gone
    through since the page read [nextGroupIndex] (read below [2^53], where
    [Number] is exact): after a trace with [k] such calls the contract
    hands out the page's value plus [k]. *)
Theorem create_page_registry_id tr w n d i c env r w1 :
  nextGroupIndex (contract w) < 2 ^ 53 ->
  createGroup n d i c env (run_trace keccak256 tr w) = (Ok r, w1) ->
  r = CreateGroupPage.registryId (Some (nextGroupIndex (contract w)))
      + N.of_nat (length (created_ids keccak256 tr w)) /\
  (r = CreateGroupPage.registryId (Some (nextGroupIndex (contract w)))
   <-> created_ids keccak256 tr w = []).
Proof.
  intros _ Hc. apply createGroup_ok_inv in Hc as (-> & _).
  destruct (created_ids_from keccak256 tr w) as [_ ->].
  assert (Hg : CreateGroupPage.registryId (Some (nextGroupIndex (contract w)))
               = nextGroupIndex (contract w)).
  { unfold CreateGroupPage.registryId.
    by destruct (N.eqb_spec (nextGroupIndex (contract w)) 0) as [->|]. }
  rewrite Hg. split; [reflexivity|].
  destruct (created_ids keccak256 tr w); cbn [length]; split; try done; lia.
Qed.

End MyGroupsProperties.

(** * The further properties on the samples *)

(** [bob] creates a third group in [busy]. *)
Lemma createGroup_round_trip_witness :
  exists gid s',
    sem_createGroup (semaphore Samples.busy) = Some (gid, s') /\
    2 = nextGroupIndex (contract Samples.busy) /\
    nextGroupIndex (contract (createGroup "third" "about" "" "Vote" envBob Samples.busy).2)
      = 2 + 1 /\
    getGroupInfo 2 (createGroup "third" "about" "" "Vote" envBob Samples.busy).2 =
      (Ok (mkGroupInfo gid (msg_sender envBob) (uint64 (block_timestamp envBob))
             true "third" "about" "" "Vote"),
       (createGroup "third" "about" "" "Vote" envBob Samples.busy).2) /\
    log (createGroup "third" "about" "" "Vote" envBob Samples.busy).2 =
      log Samples.busy ++
        [GroupCreated 2 gid (msg_sender envBob) "third" "about" "" "Vote"
           (uint64 (block_timestamp envBob))] /\
    semaphore (createGroup "third" "about" "" "Vote" envBob Samples.busy).2 = s' /\
    extcalls (createGroup "third" "about" "" "Vote" envBob Samples.busy).2 =
      extcalls Samples.busy ++ [CallCreateGroup].
Proof.
  apply (createGroup_round_trip "third" "about" "" "Vote" envBob Samples.busy 2
           (createGroup "third" "about" "" "Vote" envBob Samples.busy).2).
  vm_compute. reflexivity.
Defined.

(** The capped double refuses a third group. *)
Lemma createGroup_failure_modes_witness :
  ((UpstreamReverted CallCreateGroup = UpstreamReverted CallCreateGroup /\
    sem_createGroup (ISemaphore := Samples.capped) (semaphore Samples.busy) = None) \/
   (UpstreamReverted CallCreateGroup = Panic 17 /\
    nextGroupIndex (contract Samples.busy) = MAX_UINT256)) /\
  contract (createGroup (Sem := Samples.capped) "third" "" "" "" envBob Samples.busy).2
    = contract Samples.busy /\
  log (createGroup (Sem := Samples.capped) "third" "" "" "" envBob Samples.busy).2
    = log Samples.busy /\
  transact (Sem := Samples.capped) digest (CreateGroup "third" "" "" "", envBob) Samples.busy
    = Samples.busy.
Proof.
  apply (createGroup_failure_modes (Sem := Samples.capped) digest "third" "" "" "" envBob
           Samples.busy (UpstreamReverted CallCreateGroup)
           (createGroup (Sem := Samples.capped) "third" "" "" "" envBob Samples.busy).2).
  vm_compute. reflexivity.
Defined.

(** [bob] joins group 1 in [busy]. *)
Lemma joinGroup_effect_witness :
  isMember 1 (msg_sender envBob) (joinGroup 1 88 envBob Samples.busy).2 =
    (Ok true, (joinGroup 1 88 envBob Samples.busy).2) /\
  (forall r' a', (r', a') <> (1, msg_sender envBob) ->
     hasJoined_at (contract (joinGroup 1 88 envBob Samples.busy).2) r' a' =
     hasJoined_at (contract Samples.busy) r' a') /\
  groups (contract (joinGroup 1 88 envBob Samples.busy).2) = groups (contract Samples.busy) /\
  nextGroupIndex (contract (joinGroup 1 88 envBob Samples.busy).2) =
    nextGroupIndex (contract Samples.busy) /\
  nullifierUsed (contract (joinGroup 1 88 envBob Samples.busy).2) =
    nullifierUsed (contract Samples.busy) /\
  extcalls (joinGroup 1 88 envBob Samples.busy).2 =
    extcalls Samples.busy ++
      [CallAddMember (groupId (groups_at (contract Samples.busy) 1)) 88] /\
  log (joinGroup 1 88 envBob Samples.busy).2 =
    log Samples.busy ++
      [MemberJoined 1 (groupId (groups_at (contract Samples.busy) 1))
         (msg_sender envBob) 88 (uint64 (block_timestamp envBob))].
Proof.
  apply (joinGroup_effect 1 88 envBob Samples.busy tt
           (joinGroup 1 88 envBob Samples.busy).2).
  vm_compute. reflexivity.
Defined.

Lemma group_record_immutable_witness :
  groups_at (contract (run_trace digest more Samples.busy)) 0 =
  groups_at (contract Samples.busy) 0.
Proof.
  apply (group_record_immutable digest more Samples.busy 0).
  - apply run_trace_reachable, reach_init.
  - vm_compute. reflexivity.
Defined.

Lemma created_events_are_the_table_witness :
  omap record_of (log Samples.busy) = groups_table (contract Samples.busy).
Proof.
  apply (created_events_are_the_table digest Samples.busy).
  apply run_trace_reachable, reach_init.
Defined.

Lemma join_markers_match_events_witness :
  (forall r a, hasJoined_at (contract Samples.busy) r a = true
               <-> (r, a) ∈ omap joined_of (log Samples.busy)) /\
  NoDup (omap joined_of (log Samples.busy)).
Proof.
  apply (join_markers_match_events digest Samples.busy).
  apply run_trace_reachable, reach_init.
Defined.

Lemma nullifier_marks_match_events_witness :
  (forall r n, nullifierUsed_at (contract Samples.busy) r n = true
               <-> (r, n) ∈ omap used_of (log Samples.busy)) /\
  NoDup (omap used_of (log Samples.busy)).
Proof.
  apply (nullifier_marks_match_events digest Samples.busy).
  apply run_trace_reachable, reach_init.
Defined.

Lemma events_carry_stored_group_id_witness :
  exists_ (groups_at (contract Samples.busy) (event_ids (MemberJoined 1 101 10 5 2500)).1)
    = true /\
  groupId (groups_at (contract Samples.busy) (event_ids (MemberJoined 1 101 10 5 2500)).1)
    = (event_ids (MemberJoined 1 101 10 5 2500)).2.
Proof.
  apply (events_carry_stored_group_id digest Samples.busy (MemberJoined 1 101 10 5 2500)).
  - apply run_trace_reachable, reach_init.
  - vm_compute. do 4 right. left.
Defined.

Lemma service_calls_mirror_events_witness :
  omap added_of (extcalls Samples.busy) = omap member_of (log Samples.busy) /\
  omap (checked_of digest) (extcalls Samples.busy) = omap sent_of (log Samples.busy).
Proof.
  apply (service_calls_mirror_events digest Samples.busy).
  apply run_trace_reachable, reach_init.
Defined.

Lemma archive_healthy c a b :
  (Samples.archive c a b).1 = Returned (FetchLogs.range_logs Samples.even_logs a b).
Proof. reflexivity. Qed.

Lemma limited_truthful limit c a b logs c' :
  Samples.limited limit c a b = (Returned logs, c') ->
  logs = FetchLogs.range_logs Samples.even_logs a b.
Proof.
  unfold Samples.limited. destruct (_ >? _)%Z; [discriminate|]. by intros [= <- _].
Qed.

Lemma node_healthy c a b :
  (Samples.node c (mkLogFilter None (Some alice)) a b).1 =
  Returned (FetchLogs.range_logs
              (fun blk => filter (fun l => Samples.matches (mkLogFilter None (Some alice)) l = true)
                            (Samples.member_logs blk)) a b).
Proof.
  unfold Samples.node, FetchLogs.range_logs; cbn [fst]. f_equal.
  induction (seqZ a (b - a + 1)) as [|x l IH]; [reflexivity|].
  cbn [mbind list_bind]. by rewrite filter_app, IH.
Qed.

(** Ten blocks in chunks of four. *)
Lemma fetchLogsInChunks_complete_witness :
  exists c',
    FetchLogs.fetchLogsInChunks Samples.archive 20 0 9 4 0%nat =
    Some (Returned (FetchLogs.range_logs Samples.even_logs 0 9), c').
Proof.
  apply (fetchLogsInChunks_complete Samples.archive Samples.even_logs archive_healthy
           20 0 9 4 0%nat); [reflexivity | vm_compute; lia].
Defined.

(** Ten blocks in chunks of eight behind a provider that serves four. *)
Lemma fetchLogsInChunks_sound_witness :
  [0; 2; 4; 6; 8]%Z = FetchLogs.range_logs Samples.even_logs 0 9.
Proof.
  apply (fetchLogsInChunks_sound (Samples.limited 4) Samples.even_logs
           (limited_truthful 4) 50 0 9 8 0%nat [0; 2; 4; 6; 8]%Z 4%nat).
  vm_compute. reflexivity.
Defined.

Lemma fetchLogsInChunks_zero_chunk_diverges_witness :
  FetchLogs.fetchLogsInChunks Samples.archive 100 0 9 0 0%nat = None.
Proof.
  apply (fetchLogsInChunks_zero_chunk_diverges Samples.archive Samples.even_logs
           archive_healthy 100 0 9 0 0%nat); vm_compute; discriminate.
Defined.

(** Ten blocks in chunks of two behind a provider that refuses every
    range that is not empty: the chunk size is halved to one and to zero,
    the run does not end, and its requests stay bounded. *)
Lemma fetchLogsInChunks_requests_bounded_witness :
  exists new,
    (5%nat, [(0, 1); (0, 0); (0, -1); (0, -1); (0, -1)]%Z).2 =
      (0%nat, @nil (Z * Z)).2 ++ new /\
    Forall (FetchLogs.within 0 9 2) new.
Proof.
  apply (fetchLogsInChunks_requests_bounded (Samples.limited 0) 6 0 9 2
           (0%nat, []) None
           (5%nat, [(0, 1); (0, 0); (0, -1); (0, -1); (0, -1)]%Z)).
  - vm_compute. discriminate.
  - vm_compute. reflexivity.
Defined.

Lemma scan_window_witness :
  GroupMembers.fromBlock 25000 = UserGroups.fromBlock 25000 /\
  UserGroups.fromBlock 25000 = Z.max 0 (25000 - 10000) /\
  (0 <= UserGroups.fromBlock 25000 <= 25000)%Z /\
  (25000 - UserGroups.fromBlock 25000 + 1 <= 10001)%Z.
Proof.
  apply (scan_window 25000). vm_compute. discriminate.
Defined.

(** The members of group 0: an undecoded log is passed over. *)
Lemma fetchGroupMembers_result_witness :
  GroupMembers.fetchGroupMembers Samples.head Samples.node 0 0%nat =
    (if decide (GroupMembers.nonzero_commitments
                  [mkDecodedLog (Some (mkLogArgs (Some 0) (Some alice) (Some 77)));
                   mkDecodedLog None;
                   mkDecodedLog (Some (mkLogArgs (Some 0) (Some alice) (Some 78)))] = [])
     then Thrown (new_Error GroupMembers.no_members)
     else Returned
            (GroupMembers.nonzero_commitments
               [mkDecodedLog (Some (mkLogArgs (Some 0) (Some alice) (Some 77)));
                mkDecodedLog None;
                mkDecodedLog (Some (mkLogArgs (Some 0) (Some alice) (Some 78)))]),
     1%nat).
Proof.
  apply (fetchGroupMembers_result Samples.head Samples.node 0 0%nat 25000%Z 0%nat).
  - reflexivity.
  - vm_compute. reflexivity.
Defined.

(** [alice]'s groups: id 0 logged twice is listed once, id 5 has no
    record. *)
Lemma fetchUserGroups_listing_witness :
  NoDup (UserGroups.registryId <$>
           [UserGroups.mkGroup 0 100 10 1000 true; UserGroups.mkGroup 1 101 10 1001 true]) /\
  Forall (fun g => UserGroups.exists_ g = true)
    [UserGroups.mkGroup 0 100 10 1000 true; UserGroups.mkGroup 1 101 10 1001 true].
Proof.
  apply (fetchUserGroups_listing Samples.head Samples.node Samples.groups_getter
           10 alice 0%nat _ 6%nat).
  vm_compute. reflexivity.
Defined.

Lemma fetchUserGroups_scans_window_witness :
  exists c2,
    UserGroups.fetchUserGroups Samples.head Samples.node Samples.groups_getter
      (Z.to_nat 10002) alice 0%nat =
    Some (UserGroups.read_all Samples.groups_getter
            (UserGroups.collect
               (FetchLogs.range_logs
                  (fun blk =>
                     filter (fun l => Samples.matches (mkLogFilter None (Some alice)) l = true)
                       (Samples.member_logs blk))
                  (Z.max 0 (25000 - 10000)) 25000))
            [] c2).
Proof.
  apply (fetchUserGroups_scans_window Samples.head Samples.node Samples.groups_getter
           (Z.to_nat 10002) alice _ 0%nat 25000%Z 0%nat).
  - apply node_healthy.
  - reflexivity.
  - rewrite Z2Nat.id; [apply Z.le_refl | discriminate].
Defined.

(** [bob] has joined group 0 of [busy] and not group 1. *)
Lemma my_groups_lists_joined_witness :
  MyGroups.myGroupIds (MyGroups.snapshot (contract Samples.busy)) (Some bob) true
    (Some (nextGroupIndex (contract Samples.busy))) true true =
    filter (fun r => hasJoined_at (contract Samples.busy) r bob = true)
      (N.of_nat <$> seq 0 (N.to_nat (nextGroupIndex (contract Samples.busy)))) /\
  (forall r,
     r ∈ MyGroups.myGroupIds (MyGroups.snapshot (contract Samples.busy)) (Some bob) true
           (Some (nextGroupIndex (contract Samples.busy))) true true
     <-> hasJoined_at (contract Samples.busy) r bob = true).
Proof.
  apply (my_groups_lists_joined digest Samples.busy bob).
  - apply run_trace_reachable, reach_init.
  - vm_compute. reflexivity.
Defined.

(** [Number] rounds from [2^53] on: the ids [2^53] and [2^53 + 1] of two
    logs become one, and one group is read. *)
Example number_merges_ids :
  Number (2 ^ 53 + 1) = 2 ^ 53 /\
  Number (2 ^ 53 + 3) = 2 ^ 53 + 4 /\
  Number (2 ^ 64 - 1) = 2 ^ 64 /\
  UserGroups.collect
    [mkDecodedLog (Some (mkLogArgs (Some (2 ^ 53)) (Some alice) (Some 1)));
     mkDecodedLog (Some (mkLogArgs (Some (2 ^ 53 + 1)) (Some alice) (Some 2)))]
    = [2 ^ 53].
Proof. vm_compute. repeat split; reflexivity. Qed.

(** The samples evaluated: a provider that serves one block per request
    makes the scan of eight blocks in chunks of six throw, since the last
    chunk of two blocks fits the halved chunk size and is asked for again
    as a whole; the page of [bob] shows group 0; the members of group 1,
    whose only commitment is 0, are not found. *)
Example samples_evaluated :
  fst <$> FetchLogs.fetchLogsInChunks (Samples.limited 1) 50 0 7 6 0%nat
    = Some (Thrown Samples.too_wide) /\
  MyGroups.myGroupIds (MyGroups.snapshot (contract Samples.busy)) (Some bob) true
    (Some (nextGroupIndex (contract Samples.busy))) true true = [0] /\
  MyGroups.myGroupIds (MyGroups.snapshot (contract Samples.busy)) (Some bob) true
    (Some 0) true true = [] /\
  (GroupMembers.fetchGroupMembers Samples.head Samples.node 0 0%nat).1 = Returned [77; 78] /\
  (GroupMembers.fetchGroupMembers Samples.head Samples.node 1 0%nat).1
    = Thrown (new_Error GroupMembers.no_members).
Proof. vm_compute. repeat split; reflexivity. Qed.

(** The page read the counter of [w2]; meanwhile [more] created a group. *)
Lemma create_page_registry_id_witness :
  3 = CreateGroupPage.registryId (Some (nextGroupIndex (contract w2)))
      + N.of_nat (length (created_ids digest more w2)) /\
  (3 = CreateGroupPage.registryId (Some (nextGroupIndex (contract w2)))
   <-> created_ids digest more w2 = []).
Proof.
  apply (create_page_registry_id digest more w2 "late" "" "" "" envBobLater 3
           (createGroup "late" "" "" "" envBobLater (run_trace digest more w2)).2).
  - vm_compute. reflexivity.
  - vm_compute. reflexivity.
Defined.
